(** * libEmuSC voice core: AHDSR envelope and Partial sample cursor

    A shallow embedding of [libemusc/src/ahdsr.cc] and
    [libemusc/src/partial.cc].

    Numeric conventions.
    - [double] values of the envelope are real numbers ([R]): the envelope
      uses [pow] and [log], which have no rational counterpart.
    - [float] values of the sample cursor are rationals ([Q]) with exact
      arithmetic; [roundf] rounds half away from zero.  Every concrete
      run below uses dyadic values of small magnitude, on which exact
      arithmetic and IEEE single precision agree.
    - C++ integers whose declared width lives in the headers ([ahdsr.h],
      [partial.h], [control_rom.h]) are unbounded integers ([Z]).
    - Undefined or exceptional behaviour of the C++ code (reading outside
      an array, [std::vector::at] out of range, a null pointer
      dereference, reading an unassigned local) is an explicit result of
      the model, never silently given a value.
    - Diagnostic output on [std::cerr] is not modelled. *)

From Stdlib Require Import ZArith List Bool Lia.
From Stdlib Require Import QArith Qround Qabs Lqa.
From Stdlib Require Import Reals Lra.
Import ListNotations.

(** ** Results of C++ calls *)

Inductive fault : Type :=
| OutOfBounds      (* read outside a fixed-size array *)
| OutOfRange       (* std::out_of_range thrown by vector::at *)
| NullDeref        (* member call through a NULL pointer *)
| UninitRead       (* read of a local that was never assigned *)
| OutOfFuel.       (* the model's loop budget ran out *)

Inductive outcome (A : Type) : Type :=
| Ok (a : A)
| Fault (f : fault).
Arguments Ok {A} a.
Arguments Fault {A} f.

Definition bind {A B} (m : outcome A) (k : A -> outcome B) : outcome B :=
  match m with
  | Ok a => k a
  | Fault f => Fault f
  end.

Notation "x <- m ;; k" := (bind m (fun x => k))
  (at level 61, m at next level, right associativity).

Definition of_option {A} (f : fault) (o : option A) : outcome A :=
  match o with
  | Some a => Ok a
  | None => Fault f
  end.

(** A computation indexed by its loop budget settles when every budget
    from some point on gives one and the same result, which is not
    [OutOfFuel]. *)
Definition settles {A} (f : nat -> outcome A) : Prop :=
  exists (N : nat) (r : outcome A),
    r <> Fault OutOfFuel /\ forall fuel, (N <= fuel)%nat -> f fuel = r.

(** ** The envelope generator, ahdsr.cc *)

Module AHDSR.
Local Open Scope Z_scope.

(** [enum Phase].  The constructors copy [value[0..4]] into
    [_phaseValue[0..4]] and label entry 0 "Attack" and entry 4
    "Release"; the code indexes [_phaseValue] and [_phaseDuration] with
    the phase itself, so Attack is 0 and Off, declared just before it,
    is -1. *)
Inductive Phase : Type :=
| ahdsr_Off | ahdsr_Attack | ahdsr_Hold | ahdsr_Decay | ahdsr_Sustain
| ahdsr_Release.

Definition phase_index (p : Phase) : Z :=
  match p with
  | ahdsr_Off => -1
  | ahdsr_Attack => 0
  | ahdsr_Hold => 1
  | ahdsr_Decay => 2
  | ahdsr_Sustain => 3
  | ahdsr_Release => 4
  end.

Definition phase_eqb (p q : Phase) : bool := phase_index p =? phase_index q.

(** A C array [A x[5]]. *)
Record array5 (A : Type) : Type := Array5 {
  a0 : A; a1 : A; a2 : A; a3 : A; a4 : A
}.
Arguments Array5 {A}.
Arguments a0 {A}.
Arguments a1 {A}.
Arguments a2 {A}.
Arguments a3 {A}.
Arguments a4 {A}.

(** [x[i]]: defined for 0 <= i < 5 only. *)
Definition at5 {A} (x : array5 A) (i : Z) : outcome A :=
  match i with
  | 0 => Ok (a0 x)
  | 1 => Ok (a1 x)
  | 2 => Ok (a2 x)
  | 3 => Ok (a3 x)
  | 4 => Ok (a4 x)
  | _ => Fault OutOfBounds
  end.

(** The part of [Settings] the envelope reads. *)
Inductive PatchParam : Type :=
| TVFAEnvAttack | TVFAEnvDecay | TVFAEnvRelease.

Record Settings : Type := {
  SampleRate : Z;                       (* get_param_uint32(SampleRate) *)
  get_param : PatchParam -> Z -> Z      (* get_param(param, partId) *)
}.

Record t : Type := mk {
  _sampleRate : Z;
  _key : Z;
  _partId : Z;
  _phase : Phase;
  _terminalPhase : Phase;
  _currentValue : R;
  _finished : bool;
  _phaseValue : array5 R;
  _phaseDuration : array5 Z;
  _phaseShape : array5 bool;
  _phaseInitValue : R;
  _phaseSampleLen : Z;
  _phaseSampleIndex : Z
}.

(** The members no constructor initialises. *)
Record junk : Type := Junk {
  j_initValue : R; j_sampleLen : Z; j_sampleIndex : Z
}.

(** [AHDSR::AHDSR(value, duration, shape, key, settings, partId, id)] *)
Definition new (value : array5 R) (duration : array5 Z)
    (shape : array5 bool) (key : Z) (s : Settings) (partId : Z)
    (j : junk) : t :=
  {| _sampleRate := SampleRate s;
     _key := key;
     _partId := partId;
     _phase := ahdsr_Off;
     _terminalPhase := ahdsr_Release;
     _currentValue := 0%R;
     _finished := false;
     _phaseValue := value;
     _phaseDuration := duration;
     _phaseShape := shape;
     _phaseInitValue := j_initValue j;
     _phaseSampleLen := j_sampleLen j;
     _phaseSampleIndex := j_sampleIndex j |}.

(** [AHDSR::AHDSR(init, value, duration, settings, partId, id)] *)
Definition new_init (init : R) (value : array5 R) (duration : array5 Z)
    (s : Settings) (partId : Z) (j : junk) : t :=
  {| _sampleRate := SampleRate s;
     _key := -1;
     _partId := partId;
     _phase := ahdsr_Off;
     _terminalPhase := ahdsr_Release;
     _currentValue := init;
     _finished := false;
     _phaseValue := value;
     _phaseDuration := duration;
     _phaseShape := Array5 false false false false false;
     _phaseInitValue := j_initValue j;
     _phaseSampleLen := j_sampleLen j;
     _phaseSampleIndex := j_sampleIndex j |}.

(** [round] of <cmath>, to the nearest integer, halves away from zero. *)
Definition round (x : R) : Z :=
  if Rle_dec 0 x then Int_part (x + / 2) else - Int_part (- x + / 2).

(** [AHDSR::_convert_time_to_sec] *)
Definition _convert_time_to_sec (time : Z) (key : Z) : R :=
  if key <? 0
  then (Rpower 2 (IZR time / 18) / (545 / 100) - 183 / 1000)%R
  else ((Rpower 2 (IZR time / 18) / (545 / 100) - 183 / 1000)
        * (1 - IZR key / 128))%R.

(** The duration of a phase entered now: the table entry [d], shifted
    by the part's envelope offset for Attack, Decay and Release, and
    clamped to 0..127. *)
Definition duration_total (s : Settings) (newPhase : Phase) (partId : Z)
    (d : Z) : Z :=
  let durationTotal :=
    if phase_eqb newPhase ahdsr_Attack
    then d + (get_param s TVFAEnvAttack partId - 64)
    else if phase_eqb newPhase ahdsr_Decay
    then d + (get_param s TVFAEnvDecay partId - 64)
    else if phase_eqb newPhase ahdsr_Release
    then d + (get_param s TVFAEnvRelease partId - 64)
    else d in
  let durationTotal := if durationTotal <? 0 then 0 else durationTotal in
  if durationTotal >? 127 then 127 else durationTotal.

(** [AHDSR::_init_new_phase] *)
Definition _init_new_phase (s : Settings) (newPhase : Phase) (e : t)
    : outcome t :=
  if phase_eqb newPhase ahdsr_Off then Ok e
  else
    d <- at5 (_phaseDuration e) (phase_index newPhase) ;;
    let durationTotal := duration_total s newPhase (_partId e) d in
    let phaseDurationSec := _convert_time_to_sec durationTotal (_key e) in
    Ok {| _sampleRate := _sampleRate e;
          _key := _key e;
          _partId := _partId e;
          _phase := newPhase;
          _terminalPhase := _terminalPhase e;
          _currentValue := _currentValue e;
          _finished := _finished e;
          _phaseValue := _phaseValue e;
          _phaseDuration := _phaseDuration e;
          _phaseShape := _phaseShape e;
          _phaseInitValue := _currentValue e;
          _phaseSampleLen :=
            round (phaseDurationSec * IZR (_sampleRate e))%R;
          _phaseSampleIndex := 0 |}.

(** [AHDSR::start] *)
Definition start (s : Settings) (e : t) : outcome t :=
  _init_new_phase s ahdsr_Attack e.

Definition set_finished (e : t) : t :=
  {| _sampleRate := _sampleRate e; _key := _key e; _partId := _partId e;
     _phase := _phase e; _terminalPhase := _terminalPhase e;
     _currentValue := _currentValue e; _finished := true;
     _phaseValue := _phaseValue e; _phaseDuration := _phaseDuration e;
     _phaseShape := _phaseShape e; _phaseInitValue := _phaseInitValue e;
     _phaseSampleLen := _phaseSampleLen e;
     _phaseSampleIndex := _phaseSampleIndex e |}.

(** The assignment to [_currentValue] followed by [_phaseSampleIndex ++]. *)
Definition emit (e : t) (v : R) : t * R :=
  ({| _sampleRate := _sampleRate e; _key := _key e; _partId := _partId e;
      _phase := _phase e; _terminalPhase := _terminalPhase e;
      _currentValue := v; _finished := _finished e;
      _phaseValue := _phaseValue e; _phaseDuration := _phaseDuration e;
      _phaseShape := _phaseShape e; _phaseInitValue := _phaseInitValue e;
      _phaseSampleLen := _phaseSampleLen e;
      _phaseSampleIndex := _phaseSampleIndex e + 1 |}, v).

Definition linear (init target : R) (idx len : Z) : R :=
  (init + (target - init) * (IZR idx / IZR len))%R.

Definition concave (init target : R) (idx len : Z) : R :=
  (init + (target - init)
          * (ln (10 * IZR idx / IZR len + 1) / ln (10 + 1)))%R.

(** The decimal logarithm. *)
Definition log10 (x : R) : R := (ln x / ln 10)%R.

(** The flag line 224 reads, [_phaseShape[_phase - 1]]. *)
Definition shape_read (e : t) : outcome bool :=
  at5 (_phaseShape e) (phase_index (_phase e) - 1).

(** Lines 222-247 of [get_next_value]: the per-sample value of the
    current phase. *)
Definition sample_value (e : t) : outcome (t * R) :=
  if _phaseSampleLen e <=? 0 then
    v <- at5 (_phaseValue e) (phase_index (_phase e)) ;;
    Ok (emit e v)
  else
    sh <- shape_read e ;;
    v <- at5 (_phaseValue e) (phase_index (_phase e)) ;;
    if negb sh
    then Ok (emit e (linear (_phaseInitValue e) v
                       (_phaseSampleIndex e) (_phaseSampleLen e)))
    else Ok (emit e (concave (_phaseInitValue e) v
                       (_phaseSampleIndex e) (_phaseSampleLen e))).

Definition phase_over (e : t) : bool :=
  _phaseSampleIndex e >? _phaseSampleLen e.

(** [AHDSR::get_next_value] *)
Definition get_next_value (s : Settings) (e : t) : outcome (t * R) :=
  match _phase e with
  | ahdsr_Off => Ok (e, 0%R)
  | ahdsr_Attack =>
      e1 <- (if phase_over e then _init_new_phase s ahdsr_Hold e else Ok e) ;;
      sample_value e1
  | ahdsr_Hold =>
      e1 <- (if phase_over e then _init_new_phase s ahdsr_Decay e else Ok e) ;;
      sample_value e1
  | ahdsr_Decay =>
      e1 <- (if phase_over e then _init_new_phase s ahdsr_Sustain e
             else Ok e) ;;
      sample_value e1
  | ahdsr_Sustain =>
      if phase_over e then
        sv <- at5 (_phaseValue e) (phase_index ahdsr_Sustain) ;;
        if Req_dec_T sv 0
        then e1 <- _init_new_phase s ahdsr_Release e ;; sample_value e1
        else Ok (e, _currentValue e)
      else sample_value e
  | ahdsr_Release =>
      if phase_over e then Ok (set_finished e, 0%R)
      else sample_value e
  end.

(** [AHDSR::release] *)
Definition release (s : Settings) (e : t) : outcome t :=
  if phase_eqb (_phase e) ahdsr_Release then Ok e
  else _init_new_phase s ahdsr_Release e.

(** [n] successive calls of [get_next_value]: the final state and the
    values returned, first call first. *)
Fixpoint run (s : Settings) (n : nat) (e : t) : outcome (t * list R) :=
  match n with
  | O => Ok (e, [])
  | S n' =>
      r <- get_next_value s e ;;
      r' <- run s n' (fst r) ;;
      Ok (fst r', snd r :: snd r')
  end.

(** The members that only the constructors write. *)
Definition config (e : t)
    : Z * Z * Z * Phase * array5 R * array5 Z * array5 bool :=
  (_sampleRate e, _key e, _partId e, _terminalPhase e,
   _phaseValue e, _phaseDuration e, _phaseShape e).

(** The phase [get_next_value] enters when the current one is spent. *)
Definition next_phase (p : Phase) : Phase :=
  match p with
  | ahdsr_Attack => ahdsr_Hold
  | ahdsr_Hold => ahdsr_Decay
  | ahdsr_Decay => ahdsr_Sustain
  | ahdsr_Sustain => ahdsr_Release
  | p => p
  end.

End AHDSR.

(** ** The partial (voice), partial.cc *)

Module Partial.
Local Open Scope Z_scope.

(** *** ROM records ([control_rom.h], [pcm_rom.h]) *)

Record InstPartial : Type := {
  partialIndex : Z;
  pitchKeyFlw : Z;
  coarsePitch : Z;
  finePitch : Z;
  ip_volume : Z;
  panpot : Z
}.

Record RomPartial : Type := {
  breaks : Z -> Z;         (* uint8_t breaks[16] *)
  samples : Z -> Z         (* uint16_t samples[16] *)
}.

Record Sample : Type := {
  sampleLen : Z;
  loopLen : Z;
  loopMode : Z;
  rootKey : Z;
  pitch : Z;
  volume : Z;
  fineVolume : Z
}.

(** [ControlRom::SynthGen], in declaration order. *)
Inductive SynthGen : Type := SC55 | SC55mk2 | SC88.

Definition gen_index (g : SynthGen) : Z :=
  match g with SC55 => 0 | SC55mk2 => 1 | SC88 => 2 end.

Record ControlRom : Type := {
  instrument : Z -> Z -> InstPartial;   (* instrument(i).partials[p] *)
  partial : Z -> RomPartial;
  sample : Z -> Sample;
  generation : SynthGen
}.

Record PcmRom : Type := {
  samplesF : Z -> list Q                (* samples(i).samplesF *)
}.

(** *** Settings, as read by the partial *)

Record Settings : Type := {
  UseForRhythm : Z -> Z;                (* partId *)
  PitchCoarseTune : Z -> Z;
  PitchKeyShift : Z -> Z;
  KeyShift : Z;
  SampleRate : Z;
  PitchOffsetFine : Z -> Z;             (* get_param_nib16 *)
  Tune : Z;                             (* get_param_32nib *)
  ScaleTuning : Z -> Z -> Z;            (* ScaleTuningC + n, partId *)
  PitchFineTune : Z -> Z;               (* get_param_uint16 *)
  pitchBend_factor : Z -> Q;
  Acc_AmplitudeControl : Z -> Z;
  PlayKeyNumber : Z -> Z -> Z;          (* drumMap, key *)
  Level : Z -> Z -> Z;
  DrumPanpot : Z -> Z -> Z;
  RxNoteOff : Z -> Z -> Z
}.

(** *** Collaborators whose code is in other files

    The modulators TVP, TVF and TVA, the reconstruction filter, the LFO
    and the <cmath> functions on floating-point numbers (which map
    floats to floats, hence rationals to rationals). *)
Class Collaborators : Type := {
  WaveGenerator : Type;
  TVP : Type;
  TVF : Type;
  TVA : Type;
  Filter : Type;
  new_TVP : InstPartial -> WaveGenerator * WaveGenerator -> Settings -> Z
            -> TVP;
  new_TVF : InstPartial -> Z -> WaveGenerator * WaveGenerator -> Settings
            -> Z -> TVF;
  new_TVA : InstPartial -> Z -> WaveGenerator * WaveGenerator -> Settings
            -> Z -> TVA;
  tvp_get_pitch : TVP -> TVP * Q;
  tva_finished : TVA -> bool;
  tva_get_amplification : TVA -> TVA * Q;
  tvp_note_off : TVP -> TVP;
  tvf_note_off : TVF -> TVF;
  tva_note_off : TVA -> TVA;
  new_filter : Z -> Z -> Filter;
  filter_apply : Filter -> Q -> Filter * Q;
  c_exp : Q -> Q;
  c_log : Q -> Q;
  c_pow : Q -> Q -> Q
}.

(** *** Floating-point helpers *)

Definition Qltb (a b : Q) : bool := negb (Qle_bool b a).

(** [roundf]: nearest integer, halves away from zero. *)
Definition roundf (x : Q) : Z :=
  if Qle_bool 0 x then Qfloor (x + (1 # 2))%Q
  else - Qfloor (- x + (1 # 2))%Q.

(** Conversion of a floating-point value to [uint8_t]. *)
Definition to_uint8 (x : Q) : Z :=
  (Z.quot (Qnum x) (Zpos (Qden x))) mod 256.

Section WithCollaborators.
Context {C : Collaborators}.

(** *** State *)

(** The members of [Partial] that [_next_sample_from_rom] updates. *)
Record Cursor : Type := mkCursor {
  _index : Q;
  _direction : Z;
  _sample : Q;
  _lastPos : Z;
  _rf1 : Filter;
  _rf2 : Filter
}.

(** The other members.  Pointers are [None] while unset: [_tvp], [_tvf]
    and [_tva] start as NULL, [_pcmSamples] and [_ctrlSample] are not
    initialised before step 3 of the constructor. *)
Record t : Type := mk {
  _key : Z;
  _instPartial : InstPartial;
  cursor : Cursor;
  _settings : Settings;
  _partId : Z;
  _keyFreq : Q;
  _expFactor : Q;
  _isDrum : bool;
  _drumMap : Z;
  _keyDiff : Z;
  _staticPitchTune : Q;
  _pcmSamples : option (list Q);
  _ctrlSample : option Sample;
  _tvp : option TVP;
  _tvf : option TVF;
  _tva : option TVA
}.

Definition set_cursor (p : t) (c : Cursor) : t :=
  {| _key := _key p; _instPartial := _instPartial p; cursor := c;
     _settings := _settings p; _partId := _partId p;
     _keyFreq := _keyFreq p; _expFactor := _expFactor p;
     _isDrum := _isDrum p; _drumMap := _drumMap p; _keyDiff := _keyDiff p;
     _staticPitchTune := _staticPitchTune p;
     _pcmSamples := _pcmSamples p; _ctrlSample := _ctrlSample p;
     _tvp := _tvp p; _tvf := _tvf p; _tva := _tva p |}.

Definition set_tvp (p : t) (x : TVP) : t :=
  {| _key := _key p; _instPartial := _instPartial p; cursor := cursor p;
     _settings := _settings p; _partId := _partId p;
     _keyFreq := _keyFreq p; _expFactor := _expFactor p;
     _isDrum := _isDrum p; _drumMap := _drumMap p; _keyDiff := _keyDiff p;
     _staticPitchTune := _staticPitchTune p;
     _pcmSamples := _pcmSamples p; _ctrlSample := _ctrlSample p;
     _tvp := Some x; _tvf := _tvf p; _tva := _tva p |}.

Definition set_tva (p : t) (x : TVA) : t :=
  {| _key := _key p; _instPartial := _instPartial p; cursor := cursor p;
     _settings := _settings p; _partId := _partId p;
     _keyFreq := _keyFreq p; _expFactor := _expFactor p;
     _isDrum := _isDrum p; _drumMap := _drumMap p; _keyDiff := _keyDiff p;
     _staticPitchTune := _staticPitchTune p;
     _pcmSamples := _pcmSamples p; _ctrlSample := _ctrlSample p;
     _tvp := _tvp p; _tvf := _tvf p; _tva := Some x |}.

(** Values of the members the constructor has not assigned yet. *)
Record junk : Type := Junk {
  j_drumMap : Z; j_keyDiff : Z; j_staticPitchTune : Q
}.

(** *** Construction *)

(** Step 1 of the constructor: the static coarse tuning. *)
Definition key_shift (rom : ControlRom) (s : Settings) (partId : Z)
    (isDrum : bool) : Z :=
  let keyShift := PitchCoarseTune s partId - 64 in
  if negb isDrum
  then keyShift + (KeyShift s - 64 + PitchKeyShift s partId - 64)
  else if gen_index (generation rom) >=? gen_index SC55mk2
       then keyShift + (PitchKeyShift s partId - 64)
       else keyShift.

(** What the [for] loop of step 2 leaves behind. *)
Inductive walk_result : Type :=
| Selected (sampleIndex : Z)     (* assigned, then [break] *)
| Invalid                        (* assigned 0xffff, then [return] *)
| Unassigned.                    (* the loop ran to j = 16 *)

Definition break_matches (rp : RomPartial) (k : Z) (j : Z) : bool :=
  (breaks rp j >=? k) || (breaks rp j =? 127).

(** The loop from index [j] with [n] iterations left. *)
Fixpoint break_walk_from (rp : RomPartial) (k : Z) (n : nat) (j : Z)
    : walk_result :=
  match n with
  | O => Unassigned
  | S n' =>
      if break_matches rp k j
      then if samples rp j =? 65535 then Invalid else Selected (samples rp j)
      else break_walk_from rp k n' (j + 1)
  end.

Definition break_walk (rp : RomPartial) (k : Z) : walk_result :=
  break_walk_from rp k 16 0.

(** The cursor members as the initialiser list sets them. *)
Definition cursor0 : Cursor :=
  {| _index := 0; _direction := 1; _sample := 0; _lastPos := 0;
     _rf1 := new_filter 32000 15; _rf2 := new_filter 32000 15 |}.

(** The member initialiser list. *)
Definition init_members (key : Z) (ip : InstPartial) (s : Settings)
    (partId : Z) (isDrum : bool) (j : junk) : t :=
  {| _key := key;
     _instPartial := ip;
     cursor := cursor0;
     _settings := s;
     _partId := partId;
     _keyFreq := (440 * c_exp (c_log 2 * inject_Z (key - 69) / 12))%Q;
     _expFactor := (c_log 2 / 12000)%Q;
     _isDrum := isDrum;
     _drumMap := j_drumMap j;
     _keyDiff := j_keyDiff j;
     _staticPitchTune := j_staticPitchTune j;
     _pcmSamples := None;
     _ctrlSample := None;
     _tvp := None;
     _tvf := None;
     _tva := None |}.

(** Steps 3 to 5 and the three modulators. *)
Definition finish_construction (p : t) (rom : ControlRom) (pcm : PcmRom)
    (LFO : WaveGenerator * WaveGenerator) (keyShift sampleIndex : Z) : t :=
  let s := _settings p in
  let key := _key p in
  let ip := _instPartial p in
  let cs := sample rom sampleIndex in
  let drumMap := if _isDrum p then UseForRhythm s (_partId p) - 1
                 else _drumMap p in
  let keyDiff := if _isDrum p
                 then keyShift + PlayKeyNumber s drumMap key - 60
                 else key + keyShift - rootKey cs in
  let pitchKeyFollow : Q :=
    if negb (pitchKeyFlw ip - 64 =? 10)
    then (1 + (inject_Z (pitchKeyFlw ip) - 74) / 10)%Q
    else 1%Q in
  {| _key := key;
     _instPartial := ip;
     cursor := cursor p;
     _settings := s;
     _partId := _partId p;
     _keyFreq := _keyFreq p;
     _expFactor := _expFactor p;
     _isDrum := _isDrum p;
     _drumMap := drumMap;
     _keyDiff := keyDiff;
     _staticPitchTune :=
       (c_exp (((inject_Z (coarsePitch ip - 64)
                 + inject_Z keyDiff * pitchKeyFollow) * 100
                + inject_Z (finePitch ip) - 64
                + inject_Z (Z.quot (pitch cs - 1024) 16)
                - 120)
               * c_log 2 / 1200)
        * 32000 / inject_Z (SampleRate s))%Q;
     _pcmSamples := Some (samplesF pcm sampleIndex);
     _ctrlSample := Some cs;
     _tvp := Some (new_TVP ip LFO s (_partId p));
     _tvf := Some (new_TVF ip key LFO s (_partId p));
     _tva := Some (new_TVA ip key LFO s (_partId p)) |}.

(** [Partial::Partial].  An early [return] leaves a constructed object
    behind; running off the end of the break table makes step 3 read
    [sampleIndex] unassigned. *)
Definition new (key partialId instrumentIndex : Z) (rom : ControlRom)
    (pcm : PcmRom) (LFO : WaveGenerator * WaveGenerator) (s : Settings)
    (partId : Z) (j : junk) : outcome t :=
  let ip := instrument rom instrumentIndex partialId in
  let isDrum := negb (UseForRhythm s partId =? 0) in
  let p := init_members key ip s partId isDrum j in
  let keyShift := key_shift rom s partId isDrum in
  let pIndex := partialIndex ip in
  match break_walk (partial rom pIndex) (key + keyShift) with
  | Invalid => Ok p
  | Unassigned => Fault UninitRead
  | Selected sampleIndex =>
      Ok (finish_construction p rom pcm LFO keyShift sampleIndex)
  end.

(** *** The sample cursor *)

(** [_pcmSamples->at(i)] *)
Definition pcm_at (pcm : list Q) (i : Z) : outcome Q :=
  if i <? 0 then Fault OutOfRange
  else of_option OutOfRange (nth_error pcm (Z.to_nat i)).

(** The body shared by all six loops,
    [_sample = _rf2.apply(_rf1.apply(_pcmSamples->at(_lastPos)))], with
    [_lastPos] moved by [step] (+1 for [++], -1 for [--]). *)
Definition consume (pcm : list Q) (step : Z) (c : Cursor) : outcome Cursor :=
  x <- pcm_at pcm (_lastPos c) ;;
  let r1 := filter_apply (_rf1 c) x in
  let r2 := filter_apply (_rf2 c) (snd r1) in
  Ok {| _index := _index c; _direction := _direction c;
        _sample := snd r2; _lastPos := _lastPos c + step;
        _rf1 := fst r1; _rf2 := fst r2 |}.

(** [while (cond) { consume }] with a budget of [fuel] iterations. *)
Fixpoint while_consume (fuel : nat) (cond : Cursor -> bool) (pcm : list Q)
    (step : Z) (c : Cursor) : outcome Cursor :=
  if cond c then
    match fuel with
    | O => Fault OutOfFuel
    | S fuel' =>
        c' <- consume pcm step c ;;
        while_consume fuel' cond pcm step c'
    end
  else Ok c.

Definition set_index (c : Cursor) (i : Q) : Cursor :=
  {| _index := i; _direction := _direction c; _sample := _sample c;
     _lastPos := _lastPos c; _rf1 := _rf1 c; _rf2 := _rf2 c |}.

Definition set_direction (c : Cursor) (d : Z) : Cursor :=
  {| _index := _index c; _direction := d; _sample := _sample c;
     _lastPos := _lastPos c; _rf1 := _rf1 c; _rf2 := _rf2 c |}.

Definition set_lastPos (c : Cursor) (l : Z) : Cursor :=
  {| _index := _index c; _direction := _direction c; _sample := _sample c;
     _lastPos := l; _rf1 := _rf1 c; _rf2 := _rf2 c |}.

(** The loop conditions, in source order. *)
Definition fw_consume_cond (cs : Sample) (c : Cursor) : bool :=
  (roundf (_index c) >? _lastPos c) && (_lastPos c <? sampleLen cs - 1).

Definition ahead_cond (c : Cursor) : bool := roundf (_index c) >? _lastPos c.

Definition behind_cond (c : Cursor) : bool := roundf (_index c) <? _lastPos c.

Definition bw_consume_cond (cs : Sample) (c : Cursor) : bool :=
  (roundf (_index c) <? _lastPos c)
  && (_lastPos c >? sampleLen cs - loopLen cs).

Definition bw_flush_cond (cs : Sample) (c : Cursor) : bool :=
  _lastPos c >? sampleLen cs - loopLen cs - 1.

(** The forward branch (lines 250-288).  [abs] is taken on the
    floating-point difference. *)
Definition forward (fuel : nat) (cs : Sample) (pcm : list Q) (pitchAdj : Q)
    (c : Cursor) : outcome (Cursor * bool) :=
  let c := set_index c (_index c + pitchAdj)%Q in
  c <- while_consume fuel (fw_consume_cond cs) pcm 1 c ;;
  if Qltb (inject_Z (sampleLen cs - 1)) (_index c) then
    let remaining := Qabs (inject_Z (sampleLen cs) - _index c)%Q in
    if loopMode cs =? 0 then
      let c := set_index c
                 (inject_Z (sampleLen cs - loopLen cs - 1) + remaining)%Q in
      let c := set_lastPos c (sampleLen cs - loopLen cs - 1) in
      c <- while_consume fuel ahead_cond pcm 1 c ;;
      Ok (c, false)
    else if loopMode cs =? 1 then
      let c := set_index c
                 (inject_Z (sampleLen cs) - remaining - 1)%Q in
      let c := set_direction c 0 in
      c <- while_consume fuel behind_cond pcm (-1) c ;;
      Ok (c, false)
    else if loopMode cs =? 2 then Ok (c, true)
    else Ok (c, false)
  else Ok (c, false).

(** The backward branch (lines 298-329). *)
Definition backward (fuel : nat) (cs : Sample) (pcm : list Q) (pitchAdj : Q)
    (c : Cursor) : outcome (Cursor * bool) :=
  let c := set_index c (_index c - pitchAdj)%Q in
  c <- while_consume fuel (bw_consume_cond cs) pcm (-1) c ;;
  if Qltb (_index c) (inject_Z (sampleLen cs - loopLen cs - 1)) then
    c <- while_consume fuel (bw_flush_cond cs) pcm (-1) c ;;
    let remaining := (inject_Z (sampleLen cs - loopLen cs) - _index c)%Q in
    let c := set_index c
               (inject_Z (sampleLen cs - loopLen cs) + remaining)%Q in
    let c := set_direction c 1 in
    let c := set_lastPos c (sampleLen cs - loopLen cs) in
    c <- while_consume fuel behind_cond pcm 1 c ;;
    Ok (c, false)
  else Ok (c, false).

(** [Partial::_next_sample_from_rom], on the cursor members; the second
    component is the returned flag. *)
Definition advance (fuel : nat) (cs : Sample) (pcm : list Q) (pitchAdj : Q)
    (c : Cursor) : outcome (Cursor * bool) :=
  if _direction c =? 1 then forward fuel cs pcm pitchAdj c
  else backward fuel cs pcm pitchAdj c.

Definition _next_sample_from_rom (fuel : nat) (pitchAdj : Q) (p : t)
    : outcome (t * bool) :=
  cs <- of_option UninitRead (_ctrlSample p) ;;
  pcm <- of_option UninitRead (_pcmSamples p) ;;
  r <- advance fuel cs pcm pitchAdj (cursor p) ;;
  Ok (set_cursor p (fst r), snd r).

(** *** One output frame *)

(** [Partial::_convert_volume(uint8_t)] *)
Definition _convert_volume (v : Q) : Q :=
  (1 / 10 * c_pow 2 (inject_Z (to_uint8 v) / (367111 # 10000)) - 1 / 10)%Q.

(** The pitch of lines 166-180, with the TVP advanced by [get_pitch]. *)
Definition pitch_adj (p : t) (tvp : TVP) : TVP * Q :=
  let s := _settings p in
  let freqKeyTuned :=
    (_keyFreq p + inject_Z (Z.quot (PitchOffsetFine s (_partId p) - 128) 10))%Q in
  let pitchOffsetHz := (freqKeyTuned / _keyFreq p)%Q in
  let pitchExp :=
    (inject_Z (Tune s - 1024
               + (ScaleTuning s (Z.rem (_key p) 12) (_partId p) - 64) * 10)
     + (inject_Z (PitchFineTune s (_partId p) - 8192) / (8192 # 1000)))%Q in
  let r := tvp_get_pitch tvp in
  (fst r,
   (c_exp (pitchExp * _expFactor p) * pitchOffsetHz
    * pitchBend_factor s (_partId p) * _staticPitchTune p * snd r)%Q).

(** [Partial::get_next_sample]: the new state, the caller's
    [noteSample[0..1]] and the returned flag. *)
Definition get_next_sample (fuel : nat) (p : t) (noteSample : Q * Q)
    : outcome (t * (Q * Q) * bool) :=
  tva <- of_option NullDeref (_tva p) ;;
  if tva_finished tva then Ok (p, noteSample, true)
  else
    tvp <- of_option NullDeref (_tvp p) ;;
    let pa := pitch_adj p tvp in
    let p := set_tvp p (fst pa) in
    r <- _next_sample_from_rom fuel (snd pa) p ;;
    let p := fst r in
    if snd r then Ok (p, noteSample, true)
    else
      cs <- of_option UninitRead (_ctrlSample p) ;;
      let s := _settings p in
      let sampleVol :=
        _convert_volume (inject_Z (volume cs)
                         + inject_Z (fineVolume cs - 1024) / 1000)%Q in
      let partialVol := _convert_volume (inject_Z (ip_volume (_instPartial p))) in
      let drumVol :=
        if _isDrum p
        then _convert_volume (inject_Z (Level s (_drumMap p) (_key p)))
        else 1%Q in
      let ctrlVol := (inject_Z (Acc_AmplitudeControl s (_partId p)) / 64)%Q in
      let s0 := (_sample (cursor p)
                 * (sampleVol * partialVol * drumVol * ctrlVol))%Q in
      let a := tva_get_amplification tva in
      let p := set_tva p (fst a) in
      let s0 := (s0 * snd a)%Q in
      let s1 := s0 in
      let panpot :=
        if negb (_isDrum p)
        then (inject_Z (panpot (_instPartial p) - 64) / 64)%Q
        else (inject_Z (DrumPanpot s (_drumMap p) (_key p) - 64) / 64)%Q in
      let s1 := if Qltb panpot 0 then (s1 * (1 + panpot))%Q else s1 in
      let s0 := if Qltb panpot 0 then s0
                else if Qltb 0 panpot then (s0 * (1 - panpot))%Q else s0 in
      Ok (p, ((fst noteSample + s0)%Q, (snd noteSample + s1)%Q), false).

(** [Partial::stop].  For a drum the flag is looked up with [_drumMap],
    which only a constructor that ran to its end has assigned. *)
Definition stop (p : t) : t :=
  if negb (_isDrum p
           && (RxNoteOff (_settings p) (_drumMap p) (_key p) =? 0))
  then
    {| _key := _key p; _instPartial := _instPartial p; cursor := cursor p;
       _settings := _settings p; _partId := _partId p;
       _keyFreq := _keyFreq p; _expFactor := _expFactor p;
       _isDrum := _isDrum p; _drumMap := _drumMap p;
       _keyDiff := _keyDiff p; _staticPitchTune := _staticPitchTune p;
       _pcmSamples := _pcmSamples p; _ctrlSample := _ctrlSample p;
       _tvp := option_map tvp_note_off (_tvp p);
       _tvf := option_map tvf_note_off (_tvf p);
       _tva := option_map tva_note_off (_tva p) |}
  else p.

(** The owner's loop: up to [n] frames into one accumulator, stopping at
    the first frame that reports terminated. *)
Fixpoint frames (fuel : nat) (n : nat) (p : t) (noteSample : Q * Q)
    : outcome (t * (Q * Q) * bool) :=
  match n with
  | O => Ok (p, noteSample, false)
  | S n' =>
      r <- get_next_sample fuel p noteSample ;;
      if snd r then Ok r
      else frames fuel n' (fst (fst r)) (snd (fst r))
  end.

(** *** Runs of the cursor *)

(** Successive calls of [advance], one per pitch in [ps]. *)
Fixpoint advances (fuel : nat) (cs : Sample) (pcm : list Q) (ps : list Q)
    (c : Cursor) : outcome Cursor :=
  match ps with
  | [] => Ok c
  | pitchAdj :: ps' =>
      r <- advance fuel cs pcm pitchAdj c ;;
      advances fuel cs pcm ps' (fst r)
  end.

(** Cursor states a voice can be in: the constructed one, and whatever a
    returning call with a positive pitch leaves behind. *)
Inductive cursor_reachable (cs : Sample) (pcm : list Q) : Cursor -> Prop :=
| reach_new : cursor_reachable cs pcm cursor0
| reach_step c fuel pitchAdj c' b :
    cursor_reachable cs pcm c ->
    (0 < pitchAdj)%Q ->
    advance fuel cs pcm pitchAdj c = Ok (c', b) ->
    cursor_reachable cs pcm c'.

(** The loop window of a sample, on the rounded position. *)
Definition in_window (cs : Sample) (c : Cursor) : Prop :=
  sampleLen cs - loopLen cs - 1 <= roundf (_index c) <= sampleLen cs - 1.

Definition in_windowb (cs : Sample) (c : Cursor) : bool :=
  (sampleLen cs - loopLen cs - 1 <=? roundf (_index c))
  && (roundf (_index c) <=? sampleLen cs - 1).

(** A cursor that has entered the loop window moving forward and has
    since been advanced with pitches that [bound] allows. *)
Inductive looping (bound : Sample -> Q -> Prop) (cs : Sample)
    (pcm : list Q) : Cursor -> Prop :=
| loop_enter c :
    cursor_reachable cs pcm c ->
    _direction c = 1 ->
    in_window cs c ->
    looping bound cs pcm c
| loop_step c fuel pitchAdj c' b :
    looping bound cs pcm c ->
    bound cs pitchAdj ->
    advance fuel cs pcm pitchAdj c = Ok (c', b) ->
    looping bound cs pcm c'.

(** Pitches strictly between 0 and the loop length. *)
Definition below_loopLen (cs : Sample) (pitchAdj : Q) : Prop :=
  (0 < pitchAdj /\ pitchAdj < inject_Z (loopLen cs))%Q.

(** Pitches that keep a forward loop, and a ping-pong loop, inside the
    window. *)
Definition loop_safe (cs : Sample) (pitchAdj : Q) : Prop :=
  (0 < pitchAdj)%Q /\
  (loopMode cs = 0 -> (pitchAdj < inject_Z (loopLen cs))%Q) /\
  (loopMode cs = 1 -> (pitchAdj <= inject_Z (loopLen cs) - 2)%Q).

(** The filters have been fed up to the rounded position. *)
Definition synced (c : Cursor) : Prop := _lastPos c = roundf (_index c).

(** The filters have not been fed beyond the rounded position. *)
Definition not_ahead (c : Cursor) : Prop :=
  _lastPos c <= roundf (_index c).

(** [_lastPos] is a valid lower index. *)
Definition from_zero (c : Cursor) : Prop := 0 <= _lastPos c.

(** [_lastPos] is inside the loop and below the rounded position's
    bound. *)
Definition in_loop_reads (cs : Sample) (c : Cursor) : Prop :=
  sampleLen cs - loopLen cs - 1 <= _lastPos c
  /\ roundf (_index c) <= sampleLen cs - 1.

(** A partial whose constructor ran to its end: every pointer is set. *)
Definition built (p : t) : Prop :=
  _tvp p <> None /\ _tvf p <> None /\ _tva p <> None
  /\ _pcmSamples p <> None /\ _ctrlSample p <> None.

(** A partial whose constructor bailed out: no pointer is set. *)
Definition bare (p : t) : Prop :=
  _tvp p = None /\ _tvf p = None /\ _tva p = None
  /\ _pcmSamples p = None /\ _ctrlSample p = None.

(** What a looping cursor satisfies between calls: the rounded position
    is in the window, and a cursor moving backward belongs to a
    ping-pong sample and has not gone below the window. *)
Definition loop_inv (cs : Sample) (c : Cursor) : Prop :=
  in_window cs c /\
  (_direction c = 1 \/
   (loopMode cs = 1 /\
    (inject_Z (sampleLen cs) - inject_Z (loopLen cs) - 1 <= _index c)%Q)).

(** How far [_lastPos] is behind, and ahead of, the rounded position. *)
Definition gap_up (c : Cursor) : Z := roundf (_index c) - _lastPos c.
Definition gap_down (c : Cursor) : Z := _lastPos c - roundf (_index c).

End WithCollaborators.
End Partial.

(** ** Concrete inputs *)

Module Demo.
Import Partial.
Local Open Scope Z_scope.

(** Stand-ins for the collaborators: a pass-through filter, a TVA that
    carries its finished flag, unit pitch and amplification, and
    constant <cmath> functions chosen so that the pitch is 1 and
    [_convert_volume] is 1. *)
Definition collab : Collaborators :=
  {| WaveGenerator := unit;
     TVP := unit;
     TVF := unit;
     TVA := bool;
     Filter := unit;
     new_TVP := fun _ _ _ _ => tt;
     new_TVF := fun _ _ _ _ _ => tt;
     new_TVA := fun _ _ _ _ _ => false;
     tvp_get_pitch := fun x => (x, 1%Q);
     tva_finished := fun b => b;
     tva_get_amplification := fun b => (b, 1%Q);
     tvp_note_off := fun x => x;
     tvf_note_off := fun x => x;
     tva_note_off := fun _ => true;
     new_filter := fun _ _ => tt;
     filter_apply := fun f x => (f, x);
     c_exp := fun _ => 1%Q;
     c_log := fun _ => 1%Q;
     c_pow := fun _ _ => 11%Q |}.

(** Ten PCM samples with a loop over the last four. *)
Definition pcm10 : list Q :=
  [0; 1; 2; 3; 4; 5; 6; 7; 8; 9]%Q.

Definition sample10 (mode : Z) : Sample :=
  {| sampleLen := 10; loopLen := 4; loopMode := mode; rootKey := 60;
     pitch := 1024; volume := 127; fineVolume := 1024 |}.

Definition settings : Settings :=
  {| UseForRhythm := fun _ => 0;
     PitchCoarseTune := fun _ => 64;
     PitchKeyShift := fun _ => 64;
     KeyShift := 64;
     SampleRate := 32000;
     PitchOffsetFine := fun _ => 128;
     Tune := 1024;
     ScaleTuning := fun _ _ => 64;
     PitchFineTune := fun _ => 8192;
     pitchBend_factor := fun _ => 1%Q;
     Acc_AmplitudeControl := fun _ => 64;
     PlayKeyNumber := fun _ _ => 60;
     Level := fun _ _ => 127;
     DrumPanpot := fun _ _ => 64;
     RxNoteOff := fun _ _ => 1 |}.

Definition inst_partial : InstPartial :=
  {| partialIndex := 0; pitchKeyFlw := 74; coarsePitch := 64;
     finePitch := 64; ip_volume := 127; panpot := 64 |}.

(** A control ROM whose only break table is [brk] with samples [smp]. *)
Definition rom (brk smp : Z -> Z) : ControlRom :=
  {| instrument := fun _ _ => inst_partial;
     partial := fun _ => {| breaks := brk; samples := smp |};
     sample := fun _ => sample10 2;
     generation := SC55 |}.

(** Every key range maps to sample 0. *)
Definition rom_ok : ControlRom := rom (fun _ => 127) (fun _ => 0).

(** The first matching entry holds the invalid index 0xffff. *)
Definition rom_invalid : ControlRom := rom (fun _ => 127) (fun _ => 65535).

(** No break reaches key 60 and none is 0x7f. *)
Definition rom_short : ControlRom := rom (fun _ => 48) (fun _ => 0).

(** Breaks 50, 60, 70, ... select samples 0, 1, 2, ... *)
Definition rom_keys : ControlRom :=
  rom (fun j => 50 + 10 * j) (fun j => j).

Definition pcm_rom : PcmRom := {| samplesF := fun _ => pcm10 |}.

Definition junk0 : junk := Junk 0 0 0%Q.

(** The voice [new] builds for key 60 from [rom_ok]: a forward-stop
    sample of ten values. *)
Definition voice : t (C := collab) :=
  @finish_construction collab
    (@init_members collab 60 inst_partial settings 0 false junk0)
    rom_ok pcm_rom (tt, tt) 0 0.

(** The same voice once its TVA has finished. *)
Definition voice_finished : t (C := collab) := set_tva voice true.

End Demo.

Module EnvDemo.
Import AHDSR.
Local Open Scope Z_scope.

(** A sample rate of 100 Hz and neutral envelope offsets (0x40). *)
Definition settings : Settings :=
  {| SampleRate := 100; get_param := fun _ _ => 64 |}.

(** Duration 18 in every phase: 2^(18/18) / 5.45 - 0.183 seconds, which
    at key 0 and 100 Hz rounds to 18 samples. *)
Definition envelope : t :=
  new (Array5 1 1 (1 / 2) (1 / 2) 0)%R (Array5 18 18 18 18 18)
    (Array5 false false false false false) 0 settings 0
    (Junk 0%R 0 0).

(** The result of a call that is known to return. *)
Definition returned {A} (default : A) (o : outcome A) : A :=
  match o with Ok a => a | Fault _ => default end.

(** The envelope after [start], and after [start] and [release]. *)
Definition started : t := returned envelope (start settings envelope).
Definition released : t := returned started (release settings started).

(** An envelope holding its sustain level 1/2, past the 18 samples of
    the Sustain phase. *)
Definition sustaining : t :=
  mk 100 0 0 ahdsr_Sustain ahdsr_Release (1 / 2)%R false
    (Array5 1 1 (1 / 2) (1 / 2) 0)%R (Array5 18 18 18 18 18)
    (Array5 false false false false false) (1 / 2)%R 18 19.

(** An envelope three samples into an 18-sample Hold phase. *)
Definition holding : t :=
  mk 100 0 0 ahdsr_Hold ahdsr_Release 1%R false
    (Array5 1 1 (1 / 2) (1 / 2) 0)%R (Array5 18 18 18 18 18)
    (Array5 false false false false false) 1%R 18 3.

(** An envelope past the 18 samples of its Hold phase. *)
Definition hold_spent : t :=
  mk 100 0 0 ahdsr_Hold ahdsr_Release 1%R false
    (Array5 1 1 (1 / 2) (1 / 2) 0)%R (Array5 18 18 18 18 18)
    (Array5 false false false false false) 1%R 18 19.

(** An envelope entering a Release phase of no samples. *)
Definition cut : t :=
  mk 100 0 0 ahdsr_Release ahdsr_Release (1 / 2)%R false
    (Array5 1 1 (1 / 2) (1 / 2) 0)%R (Array5 18 18 18 18 18)
    (Array5 false false false false false) (1 / 2)%R 0 0.

(** The same with a sustain level of zero. *)
Definition fading : t :=
  mk 100 0 0 ahdsr_Sustain ahdsr_Release 0%R false
    (Array5 1 1 (1 / 2) 0 0)%R (Array5 18 18 18 18 18)
    (Array5 false false false false false) (1 / 2)%R 18 19.

End EnvDemo.

(** * Properties *)

Ltac qlra := Lqa.lra.
Ltac rlra := Lra.lra.

(** Push [inject_Z] through sums and differences of integers. *)
Ltac zq :=
  unfold Z.sub in *;
  rewrite ?inject_Z_plus, ?inject_Z_opp in *;
  change (inject_Z 1) with 1%Q in *.

(** ** Rounding *)

Section Rounding.
Import Partial.
Local Open Scope Q_scope.

Lemma Qltb_true (a b : Q) : Qltb a b = true <-> a < b.
Proof.
  unfold Qltb. rewrite negb_true_iff.
  split; intro H.
  - apply Qnot_le_lt. intro Hle. apply Qle_bool_iff in Hle. congruence.
  - destruct (Qle_bool b a) eqn:E; [|reflexivity].
    apply Qle_bool_iff in E. apply Qle_not_lt in E. contradiction.
Qed.

Lemma Qltb_false (a b : Q) : Qltb a b = false <-> b <= a.
Proof.
  unfold Qltb. rewrite negb_false_iff. apply Qle_bool_iff.
Qed.

Lemma floor_spec (x : Q) : inject_Z (Qfloor x) <= x < inject_Z (Qfloor x) + 1.
Proof.
  split; [apply Qfloor_le|].
  pose proof (Qlt_floor x) as H.
  rewrite inject_Z_plus in H. exact H.
Qed.

Lemma Z_Q_le (a b : Z) : inject_Z a < inject_Z b + 1 -> (a <= b)%Z.
Proof.
  intro H. apply Z.lt_succ_r. rewrite Zlt_Qlt.
  unfold Z.succ. rewrite inject_Z_plus. exact H.
Qed.

(** [roundf x] is within one half of [x]. *)
Lemma roundf_near (x : Q) :
  x - (1#2) <= inject_Z (roundf x) <= x + (1#2).
Proof.
  unfold roundf. destruct (Qle_bool 0 x) eqn:E; cbv iota.
  - pose proof (floor_spec (x + (1#2))). qlra.
  - pose proof (floor_spec (- x + (1#2))).
    rewrite inject_Z_opp. qlra.
Qed.

Lemma roundf_le (x : Q) (n : Z) : x < inject_Z n + (1#2) -> (roundf x <= n)%Z.
Proof.
  intro H. apply Z_Q_le.
  unfold roundf. destruct (Qle_bool 0 x) eqn:E; cbv iota.
  - pose proof (floor_spec (x + (1#2))). qlra.
  - pose proof (floor_spec (- x + (1#2))).
    rewrite inject_Z_opp. qlra.
Qed.

Lemma roundf_ge (x : Q) (n : Z) : inject_Z n - (1#2) < x -> (n <= roundf x)%Z.
Proof.
  intro H.
  destruct (Z_le_gt_dec n (roundf x)) as [Hz|Hz]; [exact Hz|exfalso].
  assert (Hn : (roundf x + 1 <= n)%Z) by lia.
  rewrite Zle_Qle, inject_Z_plus in Hn. change (inject_Z 1) with 1 in Hn.
  revert Hn. unfold roundf. destruct (Qle_bool 0 x) eqn:E; cbv iota; intro Hn.
  - pose proof (floor_spec (x + (1#2))). qlra.
  - pose proof (floor_spec (- x + (1#2))).
    rewrite inject_Z_opp in Hn. qlra.
Qed.

End Rounding.

(** ** The consume loops *)

Section Loops.
Import Partial.
Context {C : Collaborators}.
Local Open Scope Z_scope.

Lemma consume_frame pcm step c c' :
  consume pcm step c = Ok c' ->
  _index c' = _index c /\ _direction c' = _direction c
  /\ _lastPos c' = _lastPos c + step.
Proof.
  unfold consume. destruct (pcm_at pcm (_lastPos c)) as [x|f]; simpl.
  - intro H. injection H as <-. simpl. auto.
  - discriminate.
Qed.

Lemma consume_fault_kind pcm step c f :
  consume pcm step c = Fault f -> f = OutOfRange.
Proof.
  unfold consume, pcm_at.
  destruct (_lastPos c <? 0); simpl; [congruence|].
  destruct (nth_error pcm (Z.to_nat (_lastPos c))); simpl; congruence.
Qed.

(** A loop changes neither the position nor the direction. *)
Lemma while_frame fuel cond pcm step :
  forall c c', while_consume fuel cond pcm step c = Ok c' ->
  _index c' = _index c /\ _direction c' = _direction c.
Proof.
  induction fuel as [|fuel IH]; intros c c'; simpl.
  - destruct (cond c); [discriminate|]. intro H. injection H as <-. auto.
  - destruct (cond c); [|intro H; injection H as <-; auto].
    destruct (consume pcm step c) as [c1|f] eqn:E; simpl; [|discriminate].
    intro H. apply IH in H. apply consume_frame in E.
    destruct H as [-> ->]. destruct E as (-> & -> & _). auto.
Qed.

(** More fuel does not change a result that did not run out of it. *)
Lemma while_fuel_mono fuel cond pcm step :
  forall c r, while_consume fuel cond pcm step c = r ->
  r <> Fault OutOfFuel ->
  forall fuel', (fuel <= fuel')%nat ->
  while_consume fuel' cond pcm step c = r.
Proof.
  induction fuel as [|fuel IH]; intros c r Hr Hne fuel' Hle.
  - simpl in Hr. destruct fuel'; simpl;
      destruct (cond c); try congruence.
  - destruct fuel' as [|fuel']; [lia|].
    simpl in *. destruct (cond c); [|exact Hr].
    destruct (consume pcm step c) as [c1|f]; simpl in *; [|exact Hr].
    apply IH; [exact Hr|exact Hne|lia].
Qed.

(** A loop whose condition bounds a measure that every iteration
    decreases by one stops within that many iterations. *)
Lemma while_bounded (m : Cursor -> Z) cond pcm step :
  (forall c, cond c = true -> 0 < m c) ->
  (forall c c', consume pcm step c = Ok c' -> m c' = m c - 1) ->
  forall fuel c, m c <= Z.of_nat fuel ->
  while_consume fuel cond pcm step c <> Fault OutOfFuel.
Proof.
  intros Hpos Hdec. induction fuel as [|fuel IH]; intros c Hm; simpl.
  - destruct (cond c) eqn:E; [|discriminate].
    apply Hpos in E. lia.
  - destruct (cond c) eqn:E; [|discriminate].
    destruct (consume pcm step c) as [c1|f] eqn:E1; simpl.
    + apply IH. rewrite (Hdec _ _ E1). lia.
    + apply consume_fault_kind in E1. congruence.
Qed.

End Loops.

(** ** Termination of the cursor *)

Section Termination.
Import Partial.
Context {C : Collaborators}.
Local Open Scope Z_scope.

Lemma settles_const {A} (r : outcome A) :
  r <> Fault OutOfFuel -> settles (fun _ => r).
Proof. intro H. exists 0%nat, r. auto. Qed.

Lemma settles_bind {A B} (f : nat -> outcome A) (g : nat -> A -> outcome B) :
  settles f ->
  (forall a, (exists fuel, f fuel = Ok a) -> settles (fun fuel => g fuel a)) ->
  settles (fun fuel => a <- f fuel ;; g fuel a).
Proof.
  intros (N1 & r1 & Hne1 & H1) Hg.
  destruct r1 as [a|flt].
  - destruct (Hg a) as (N2 & r2 & Hne2 & H2).
    { exists N1. apply H1. lia. }
    exists (Nat.max N1 N2), r2. split; [exact Hne2|].
    intros fuel Hle. rewrite H1 by lia. simpl. apply H2. lia.
  - exists N1, (Fault flt). split; [congruence|].
    intros fuel Hle. rewrite H1 by lia. reflexivity.
Qed.

Lemma while_settles (m : Cursor -> Z) cond pcm step c :
  (forall c, cond c = true -> 0 < m c) ->
  (forall c c', consume pcm step c = Ok c' -> m c' = m c - 1) ->
  settles (fun fuel => while_consume fuel cond pcm step c).
Proof.
  intros Hpos Hdec.
  exists (Z.to_nat (m c)), (while_consume (Z.to_nat (m c)) cond pcm step c).
  split.
  - apply (while_bounded m); auto. lia.
  - intros fuel Hle. eapply while_fuel_mono; eauto.
    apply (while_bounded m); auto. lia.
Qed.

Lemma gap_up_dec pcm c c' :
  consume pcm 1 c = Ok c' -> gap_up c' = gap_up c - 1.
Proof.
  intro H. apply consume_frame in H. destruct H as (Hi & _ & Hl).
  unfold gap_up. rewrite Hi, Hl. lia.
Qed.

Lemma gap_down_dec pcm c c' :
  consume pcm (-1) c = Ok c' -> gap_down c' = gap_down c - 1.
Proof.
  intro H. apply consume_frame in H. destruct H as (Hi & _ & Hl).
  unfold gap_down. rewrite Hi, Hl. lia.
Qed.

Lemma fw_consume_settles cs pcm c :
  settles (fun fuel => while_consume fuel (fw_consume_cond cs) pcm 1 c).
Proof.
  apply (while_settles gap_up); [|apply gap_up_dec].
  intros c0. unfold fw_consume_cond, gap_up.
  rewrite andb_true_iff. lia.
Qed.

Lemma ahead_settles pcm c :
  settles (fun fuel => while_consume fuel ahead_cond pcm 1 c).
Proof.
  apply (while_settles gap_up); [|apply gap_up_dec].
  intros c0. unfold ahead_cond, gap_up. lia.
Qed.

Lemma behind_settles pcm c :
  settles (fun fuel => while_consume fuel behind_cond pcm (-1) c).
Proof.
  apply (while_settles gap_down); [|apply gap_down_dec].
  intros c0. unfold behind_cond, gap_down. lia.
Qed.

Lemma bw_consume_settles cs pcm c :
  settles (fun fuel => while_consume fuel (bw_consume_cond cs) pcm (-1) c).
Proof.
  apply (while_settles gap_down); [|apply gap_down_dec].
  intros c0. unfold bw_consume_cond, gap_down.
  rewrite andb_true_iff. lia.
Qed.

Lemma bw_flush_settles cs pcm c :
  settles (fun fuel => while_consume fuel (bw_flush_cond cs) pcm (-1) c).
Proof.
  apply (while_settles
           (fun c => _lastPos c - (sampleLen cs - loopLen cs - 1))).
  - intros c0. unfold bw_flush_cond. lia.
  - intros c0 c' H. apply consume_frame in H.
    destruct H as (_ & _ & Hl). rewrite Hl. lia.
Qed.

(** The forward resync after a backward turnaround (line 325) moves
    [_lastPos] up while the position is behind it; it can only stop
    because it never starts: the re-anchored position is more than one
    sample beyond the re-anchored [_lastPos]. *)
Lemma resync_not_entered (a : Z) (x : Q) (c : Cursor) :
  (x < inject_Z (a - 1))%Q ->
  behind_cond
    (set_lastPos
       (set_direction (set_index c (inject_Z a + (inject_Z a - x))%Q) 1) a)
  = false.
Proof.
  intro Hx. unfold behind_cond. simpl.
  apply Z.ltb_ge. apply roundf_ge.
  zq. qlra.
Qed.

Lemma forward_settles cs pcm pitchAdj c :
  settles (fun fuel => forward fuel cs pcm pitchAdj c).
Proof.
  unfold forward.
  apply settles_bind; [apply fw_consume_settles|].
  intros c1 _.
  destruct (Qltb _ _); [|apply settles_const; discriminate].
  destruct (loopMode cs =? 0).
  { apply settles_bind; [apply ahead_settles|].
    intros c2 _. apply settles_const. discriminate. }
  destruct (loopMode cs =? 1).
  { apply settles_bind; [apply behind_settles|].
    intros c2 _. apply settles_const. discriminate. }
  destruct (loopMode cs =? 2); apply settles_const; discriminate.
Qed.

Lemma backward_settles cs pcm pitchAdj c :
  settles (fun fuel => backward fuel cs pcm pitchAdj c).
Proof.
  unfold backward.
  apply settles_bind; [apply bw_consume_settles|].
  intros c1 _.
  destruct (Qltb _ _) eqn:E; [|apply settles_const; discriminate].
  apply Qltb_true in E.
  apply settles_bind; [apply bw_flush_settles|].
  intros c2 [fuel0 H2].
  apply while_frame in H2. destruct H2 as [Hi _].
  exists 0%nat. eexists. split; [|intros fuel _].
  2:{ rewrite Hi.
      destruct fuel; simpl; rewrite (resync_not_entered _ _ c2 E);
        reflexivity. }
  discriminate.
Qed.

End Termination.

(** C5.  A call of [_next_sample_from_rom] ends after a bounded amount of
    work, whatever the state of the partial and whatever the pitch: there
    is a loop budget from which on every budget gives the same result,
    and that result is a return or a [std::out_of_range] exception, never
    an exhausted budget.  Each of the six loops is covered: the forward
    and backward consume loops, the forward-loop re-anchor resync, the
    ping-pong turnaround resync, the backward flush and the forward
    resync after it. *)
Theorem next_sample_from_rom_terminates
    {C : Partial.Collaborators} (p : Partial.t) (pitchAdj : Q) :
  exists (N : nat) (r : outcome (Partial.t * bool)),
    r <> Fault OutOfFuel /\
    forall fuel, (N <= fuel)%nat ->
      Partial._next_sample_from_rom fuel pitchAdj p = r.
Proof.
  change (settles (fun fuel => Partial._next_sample_from_rom fuel pitchAdj p)).
  unfold Partial._next_sample_from_rom.
  destruct (Partial._ctrlSample p) as [cs|]; simpl;
    [|apply settles_const; discriminate].
  destruct (Partial._pcmSamples p) as [pcm|]; simpl;
    [|apply settles_const; discriminate].
  apply settles_bind.
  - unfold Partial.advance.
    destruct (Partial._direction (Partial.cursor p) =? 1)%Z.
    + apply forward_settles.
    + apply backward_settles.
  - intros r _. apply settles_const. discriminate.
Qed.

(** ** The direction of the cursor *)

Section Direction.
Import Partial.
Context {C : Collaborators}.
Local Open Scope Z_scope.

Lemma advance_direction fuel cs pcm pitchAdj c c' b :
  advance fuel cs pcm pitchAdj c = Ok (c', b) ->
  _direction c' = _direction c \/ _direction c' = 0 \/ _direction c' = 1.
Proof.
  unfold advance, forward, backward.
  repeat match goal with
  | |- context [while_consume ?f ?cond ?pcm ?st ?x] =>
      let E := fresh "E" in
      destruct (while_consume f cond pcm st x) eqn:E; simpl;
      [apply while_frame in E; destruct E as [_ E]|discriminate]
  | |- context [if ?x then _ else _] => destruct x
  | |- Ok _ = Ok _ -> _ =>
      let H := fresh in intro H; injection H as <- <-
  end; simpl in *; try lia.
Qed.

Lemma reachable_direction cs pcm c :
  cursor_reachable cs pcm c -> _direction c = 0 \/ _direction c = 1.
Proof.
  induction 1 as [|c fuel pitchAdj c' b _ IH _ Hadv].
  - right. reflexivity.
  - apply advance_direction in Hadv. lia.
Qed.

Lemma advances_reachable fuel cs pcm ps :
  forall c c', cursor_reachable cs pcm c ->
  Forall (fun q => (0 < q)%Q) ps ->
  advances fuel cs pcm ps c = Ok c' ->
  cursor_reachable cs pcm c'.
Proof.
  induction ps as [|q ps IH]; intros c c' Hc Hps; simpl.
  - intro H. injection H as <-. exact Hc.
  - inversion Hps as [|? ? Hq Hps']; subst.
    destruct (advance fuel cs pcm q c) as [[c1 b]|f] eqn:E; simpl;
      [|discriminate].
    apply IH; [|exact Hps'].
    eapply reach_step; eauto.
Qed.

End Direction.

(** C3, as the code has it.  At the end of every call of
    [_next_sample_from_rom] on a reachable cursor the direction is 0
    (backward) or 1 (forward): the ping-pong turnaround stores 0, the
    backward turnaround stores 1, and every other path leaves the
    direction alone. *)
Theorem direction_zero_or_one
    {C : Partial.Collaborators} cs pcm c fuel pitchAdj c' b :
  Partial.cursor_reachable cs pcm c ->
  Partial.advance fuel cs pcm pitchAdj c = Ok (c', b) ->
  Partial._direction c' = 0%Z \/ Partial._direction c' = 1%Z.
Proof.
  intros Hc Hadv. apply reachable_direction in Hc.
  apply advance_direction in Hadv. lia.
Qed.

Lemma direction_zero_or_one_witness :
  let c' := @Partial.mkCursor Demo.collab 3%Q 1%Z 2%Q 3%Z tt tt in
  Partial.advance (C := Demo.collab) 16 (Demo.sample10 1) Demo.pcm10 3
    Partial.cursor0 = Ok (c', false)
  /\ (Partial._direction (C := Demo.collab) c' = 0%Z
      \/ Partial._direction (C := Demo.collab) c' = 1%Z).
Proof.
  intro c'. split; [reflexivity|].
  apply (direction_zero_or_one (C := Demo.collab) (Demo.sample10 1)
           Demo.pcm10 Partial.cursor0 16 3 c' false).
  - apply Partial.reach_new.
  - reflexivity.
Defined.

(** C3, as stated, fails: four calls with pitch 3 on a ten-sample
    ping-pong loop take the position past the last sample, and the
    turnaround leaves the direction at 0, which is neither -1 nor +1. *)
Lemma direction_counterexample :
  exists c',
    Partial.advances (C := Demo.collab) 16 (Demo.sample10 1) Demo.pcm10
      [3; 3; 3; 3]%Q Partial.cursor0 = Ok c'
    /\ Partial.cursor_reachable (Demo.sample10 1) Demo.pcm10 c'
    /\ ~ (Partial._direction c' = (-1)%Z \/ Partial._direction c' = 1%Z).
Proof.
  eexists. split; [vm_compute; reflexivity|]. split.
  - eapply (advances_reachable (C := Demo.collab) 16 _ _ [3; 3; 3; 3]%Q);
      [apply Partial.reach_new| |vm_compute; reflexivity].
    repeat constructor.
  - simpl. intros [H|H]; discriminate.
Qed.

(** ** The loop window *)

Section Window.
Import Partial.
Context {C : Collaborators}.
Local Open Scope Q_scope.

Lemma window_bounds cs c :
  in_window cs c ->
  inject_Z (sampleLen cs) - inject_Z (loopLen cs) - 1 - (1#2) <= _index c
  /\ _index c <= inject_Z (sampleLen cs) - 1 + (1#2).
Proof.
  intros [Hlo Hhi]. pose proof (roundf_near (_index c)) as [Hn1 Hn2].
  rewrite Zle_Qle in Hlo, Hhi. zq. split; qlra.
Qed.

Lemma window_intro cs c :
  inject_Z (sampleLen cs) - inject_Z (loopLen cs) - 1 - (1#2) < _index c ->
  _index c < inject_Z (sampleLen cs) - 1 + (1#2) ->
  in_window cs c.
Proof.
  intros Hlo Hhi. split.
  - apply roundf_ge. zq. qlra.
  - apply roundf_le. zq. qlra.
Qed.

Lemma Qabs_cases (y : Q) :
  (Qabs y == y /\ 0 <= y) \/ (Qabs y == - y /\ y <= 0).
Proof.
  destruct (Qlt_le_dec y 0) as [H|H].
  - right. split; [apply Qabs_neg|]; qlra.
  - left. split; [apply Qabs_pos|]; qlra.
Qed.

Lemma loopLen_ge_1 cs (q : Q) :
  0 < q -> q < inject_Z (loopLen cs) -> 1 <= inject_Z (loopLen cs).
Proof.
  intros H0 H1.
  assert (H : 0 < inject_Z (loopLen cs)) by qlra.
  change 0 with (inject_Z 0) in H. rewrite <- Zlt_Qlt in H.
  change 1 with (inject_Z 1). rewrite <- Zle_Qle. lia.
Qed.

Ltac run_loop k Ei Ed :=
  match goal with
  | |- context [while_consume ?f ?cond ?pcm ?st ?x] =>
      let E := fresh "E" in
      destruct (while_consume f cond pcm st x) as [k|] eqn:E; cbn [bind];
      [apply while_frame in E; destruct E as [Ei Ed];
       cbn [_index _direction set_index set_direction set_lastPos] in Ei, Ed
      |discriminate]
  end.

Lemma forward_keeps_window fuel cs pcm pitchAdj c c' b :
  loop_inv cs c -> loop_safe cs pitchAdj ->
  (loopMode cs = 0 \/ loopMode cs = 1)%Z ->
  _direction c = 1%Z ->
  forward fuel cs pcm pitchAdj c = Ok (c', b) ->
  loop_inv cs c'.
Proof.
  intros [Hw _] (Hp0 & Hs0 & Hs1) Hmode Hdir.
  apply window_bounds in Hw. destruct Hw as [Hlo Hhi].
  unfold forward. run_loop k1 Ei Ed.
  destruct (Qltb _ _) eqn:Eev.
  - apply Qltb_true in Eev. rewrite Ei in Eev.
    destruct (Qabs_cases (inject_Z (sampleLen cs) - _index k1))
      as [[Ha Hy]|[Ha Hy]]; rewrite Ei in Ha, Hy.
    all: destruct (Z.eqb_spec (loopMode cs) 0) as [M0|M0].
    all: try (destruct (Z.eqb_spec (loopMode cs) 1) as [M1|M1]; [|lia]).
    all: run_loop k2 Ei0 Ed0; intro H; injection H as <- <-.
    all: try (specialize (Hs0 M0); pose proof (loopLen_ge_1 _ _ Hp0 Hs0)).
    all: try (assert (Hs1' := Hs1 M1)).
    all: split;
      [apply window_intro; rewrite Ei0, Ei; zq; try qlra|].
    all: try (rewrite Ed0; try (left; congruence)).
    all: try (right; split; [exact M1|]).
    all: try (rewrite Ei0, Ei; zq; qlra).
  - apply Qltb_false in Eev. rewrite Ei in Eev.
    intro H. injection H as <- <-.
    split; [|left; congruence].
    apply window_intro; rewrite Ei; zq; qlra.
Qed.

Lemma backward_keeps_window fuel cs pcm pitchAdj c c' b :
  loop_inv cs c -> loop_safe cs pitchAdj ->
  _direction c <> 1%Z ->
  backward fuel cs pcm pitchAdj c = Ok (c', b) ->
  loop_inv cs c'.
Proof.
  intros [Hw Hd] (Hp0 & _ & Hs1) Hdir.
  destruct Hd as [Hd|[M1 Hge]]; [contradiction|].
  specialize (Hs1 M1).
  apply window_bounds in Hw. destruct Hw as [Hlo Hhi].
  unfold backward. run_loop k1 Ei Ed.
  destruct (Qltb _ _) eqn:Eev.
  - apply Qltb_true in Eev. rewrite Ei in Eev.
    run_loop k2 Ei0 Ed0. run_loop k3 Ei1 Ed1. intro H. injection H as <- <-.
    split; [|left; exact Ed1].
    apply window_intro; rewrite Ei1, Ei0, Ei; zq; qlra.
  - apply Qltb_false in Eev. rewrite Ei in Eev.
    intro H. injection H as <- <-.
    split.
    + apply window_intro; rewrite Ei; zq; qlra.
    + right. split; [exact M1|]. rewrite Ei. zq. qlra.
Qed.

Lemma advance_keeps_window fuel cs pcm pitchAdj c c' b :
  loop_inv cs c -> loop_safe cs pitchAdj ->
  (loopMode cs = 0 \/ loopMode cs = 1)%Z ->
  advance fuel cs pcm pitchAdj c = Ok (c', b) ->
  loop_inv cs c'.
Proof.
  intros Hinv Hsafe Hmode. unfold advance.
  destruct (Z.eqb_spec (_direction c) 1) as [Hd|Hd].
  - apply forward_keeps_window; assumption.
  - apply backward_keeps_window; assumption.
Qed.

Lemma looping_inv cs pcm c :
  (loopMode cs = 0 \/ loopMode cs = 1)%Z ->
  looping loop_safe cs pcm c -> loop_inv cs c.
Proof.
  intros Hmode. induction 1 as [c _ Hd Hw|c fuel q c' b _ IH Hq Hadv].
  - split; [exact Hw|left; exact Hd].
  - eapply advance_keeps_window; eauto.
Qed.

End Window.

Lemma in_windowb_true {C : Partial.Collaborators} cs c :
  Partial.in_windowb cs c = true -> Partial.in_window cs c.
Proof.
  unfold Partial.in_windowb, Partial.in_window.
  rewrite andb_true_iff, !Z.leb_le. auto.
Qed.

Lemma in_windowb_false {C : Partial.Collaborators} cs c :
  Partial.in_windowb cs c = false -> ~ Partial.in_window cs c.
Proof.
  unfold Partial.in_windowb, Partial.in_window.
  rewrite andb_false_iff, !Z.leb_gt. lia.
Qed.

Lemma advances_looping {C : Partial.Collaborators} bound fuel cs pcm ps :
  forall c c', Partial.looping bound cs pcm c ->
  Forall (bound cs) ps ->
  Partial.advances fuel cs pcm ps c = Ok c' ->
  Partial.looping bound cs pcm c'.
Proof.
  induction ps as [|q ps IH]; intros c c' Hc Hps; simpl.
  - intro H. injection H as <-. exact Hc.
  - inversion Hps as [|? ? Hq Hps']; subst.
    destruct (Partial.advance fuel cs pcm q c) as [[c1 b]|f] eqn:E; simpl;
      [|discriminate].
    apply IH; [|exact Hps'].
    eapply Partial.loop_step; eauto.
Qed.

(** C4, as the code has it.  For a sample with loop mode 0 and pitches
    with 0 < pitchAdj < loopLen, and for a sample with loop mode 1 and
    pitches with 0 < pitchAdj <= loopLen - 2: once a cursor moving
    forward has its rounded position in the loop window,
    sampleLen - loopLen - 1 <= round(index) <= sampleLen - 1 holds after
    every call that returns.  (The backward turnaround fires below
    sampleLen - loopLen - 1 and reflects about sampleLen - loopLen, so it
    lands at most pitchAdj + 1 above sampleLen - loopLen; with the bound
    that is at most sampleLen - 1, half a sample short of rounding out
    of the window.) *)
Theorem loop_window_kept {C : Partial.Collaborators} cs pcm c :
  (Partial.loopMode cs = 0 \/ Partial.loopMode cs = 1)%Z ->
  Partial.looping Partial.loop_safe cs pcm c ->
  (Partial.sampleLen cs - Partial.loopLen cs - 1
     <= Partial.roundf (Partial._index c)
     <= Partial.sampleLen cs - 1)%Z.
Proof.
  intros Hmode Hloop.
  destruct (looping_inv cs pcm c Hmode Hloop) as [Hw _]. exact Hw.
Qed.

Lemma loop_window_kept_witness :
  let cs := Demo.sample10 1 in
  let c := @Partial.mkCursor Demo.collab 6%Q 1%Z 5%Q 6%Z tt tt in
  let c' := @Partial.mkCursor Demo.collab 8%Q 1%Z 7%Q 8%Z tt tt in
  Partial.advances (C := Demo.collab) 16 cs Demo.pcm10 [3; 3]%Q
    Partial.cursor0 = Ok c
  /\ Partial.advance (C := Demo.collab) 16 cs Demo.pcm10 2 c = Ok (c', false)
  /\ (Partial.sampleLen cs - Partial.loopLen cs - 1
        <= Partial.roundf (Partial._index c')
        <= Partial.sampleLen cs - 1)%Z.
Proof.
  intros cs c c'.
  split; [reflexivity|]. split; [reflexivity|].
  apply (loop_window_kept (C := Demo.collab) cs Demo.pcm10 c').
  - right. reflexivity.
  - apply (Partial.loop_step (C := Demo.collab) Partial.loop_safe cs
             Demo.pcm10 c 16 2 c' false).
    + apply Partial.loop_enter.
      * apply (advances_reachable (C := Demo.collab) 16 cs Demo.pcm10
                 [3; 3]%Q Partial.cursor0 c).
        -- apply Partial.reach_new.
        -- repeat constructor.
        -- reflexivity.
      * reflexivity.
      * apply in_windowb_true. reflexivity.
    + unfold Partial.loop_safe. simpl.
      split; [reflexivity|]. split; [discriminate|].
      intros _. apply Qle_bool_iff. reflexivity.
    + reflexivity.
Defined.

(** C4, as stated, fails for a ping-pong loop.  With sampleLen = 10,
    loopLen = 4 and loop mode 1, three calls with pitch 3 bring the
    position to 9, inside the window [5, 9].  Calls with pitches 3, 2 and
    3.75, all strictly between 0 and loopLen, then turn the cursor at
    the top (position 12, overshoot 2, re-anchored at 7), walk it down
    to 5, and reflect 1.25 about sampleLen - loopLen = 6 into 10.75,
    which rounds to 11 > 9.  Every value on the way is a small dyadic
    number, and the one argument of [abs] is the integer -2. *)
Lemma loop_window_counterexample :
  let cs := Demo.sample10 1 in
  exists c c',
    Partial.advances (C := Demo.collab) 16 cs Demo.pcm10 [3; 3; 3]%Q
      Partial.cursor0 = Ok c
    /\ Partial._direction c = 1%Z
    /\ Partial.in_window cs c
    /\ Forall (Partial.below_loopLen cs) [3; 2; 15 # 4]%Q
    /\ Partial.advances (C := Demo.collab) 16 cs Demo.pcm10
         [3; 2; 15 # 4]%Q c = Ok c'
    /\ Partial.looping Partial.below_loopLen cs Demo.pcm10 c'
    /\ Partial.roundf (Partial._index c') = 11%Z
    /\ ~ (Partial.sampleLen cs - Partial.loopLen cs - 1
            <= Partial.roundf (Partial._index c')
            <= Partial.sampleLen cs - 1)%Z.
Proof.
  intro cs.
  assert (Hps : Forall (Partial.below_loopLen cs) [3; 2; 15 # 4]%Q).
  { repeat constructor. }
  assert (Hw : Partial.in_window cs
                 (@Partial.mkCursor Demo.collab 9%Q 1%Z 8%Q 9%Z tt tt)).
  { apply in_windowb_true. reflexivity. }
  exists (@Partial.mkCursor Demo.collab 9%Q 1%Z 8%Q 9%Z tt tt).
  eexists.
  split; [vm_compute; reflexivity|].
  split; [reflexivity|].
  split; [exact Hw|].
  split; [exact Hps|].
  split; [vm_compute; reflexivity|].
  split.
  - eapply (advances_looping (C := Demo.collab) _ 16 cs Demo.pcm10
              [3; 2; 15 # 4]%Q
              (@Partial.mkCursor Demo.collab 9%Q 1%Z 8%Q 9%Z tt tt));
      [|exact Hps|vm_compute; reflexivity].
    apply Partial.loop_enter; [|reflexivity|exact Hw].
    eapply (advances_reachable (C := Demo.collab) 16 cs Demo.pcm10
              [3; 3; 3]%Q);
      [apply Partial.reach_new|repeat constructor|vm_compute; reflexivity].
  - split; [reflexivity|].
    apply (in_windowb_false (C := Demo.collab) cs). reflexivity.
Qed.

(** ** Construction of a partial *)

Section Construction.
Import Partial.
Context {C : Collaborators}.
Local Open Scope Z_scope.

(** The loop started at [j] with [n] iterations left: what it leaves
    behind, by whether one of the entries j .. j+n-1 matches. *)
Lemma break_walk_from_unassigned rp k n :
  forall j,
  break_walk_from rp k n j = Unassigned <->
  (forall i, j <= i < j + Z.of_nat n -> break_matches rp k i = false).
Proof.
  induction n as [|n IH]; intro j; simpl break_walk_from.
  - split; [intros _ i Hi; lia|reflexivity].
  - destruct (break_matches rp k j) eqn:E.
    + split.
      * destruct (samples rp j =? 65535); discriminate.
      * intro H. rewrite H in E by lia. discriminate.
    + rewrite IH. split; intros H i Hi.
      * destruct (Z.eq_dec i j) as [->|Hne]; [exact E|]. apply H. lia.
      * apply H. lia.
Qed.

Lemma break_walk_from_assigned rp k n :
  forall j,
  break_walk_from rp k n j <> Unassigned ->
  exists i, j <= i < j + Z.of_nat n /\ break_matches rp k i = true.
Proof.
  induction n as [|n IH]; intro j; simpl break_walk_from.
  - congruence.
  - destruct (break_matches rp k j) eqn:E.
    + intros _. exists j. split; [lia|exact E].
    + intro H. destruct (IH _ H) as (i & Hi & Hm).
      exists i. split; [lia|exact Hm].
Qed.

Lemma break_matches_false rp k i :
  break_matches rp k i = false <-> breaks rp i < k /\ breaks rp i <> 127.
Proof.
  unfold break_matches. rewrite orb_false_iff, Z.geb_leb, Z.leb_gt, Z.eqb_neq.
  reflexivity.
Qed.

Lemma break_matches_true rp k i :
  break_matches rp k i = true <-> breaks rp i >= k \/ breaks rp i = 127.
Proof.
  unfold break_matches. rewrite orb_true_iff, Z.geb_leb, Z.leb_le, Z.eqb_eq.
  split; (intros [H|H]; [left; lia|right; exact H]).
Qed.

Lemma new_after_walk key partialId instrumentIndex rom pcm LFO s partId j :
  let ip := instrument rom instrumentIndex partialId in
  let isDrum := negb (UseForRhythm s partId =? 0) in
  let keyShift := key_shift rom s partId isDrum in
  new key partialId instrumentIndex rom pcm LFO s partId j =
  match break_walk (partial rom (partialIndex ip)) (key + keyShift) with
  | Invalid => Ok (init_members key ip s partId isDrum j)
  | Unassigned => Fault UninitRead
  | Selected sampleIndex =>
      Ok (finish_construction (init_members key ip s partId isDrum j)
            rom pcm LFO keyShift sampleIndex)
  end.
Proof. reflexivity. Qed.

End Construction.

(** C10.  The break-table walk leaves the sample index assigned exactly
    when some entry j in [0, 16) has breaks[j] >= key + keyShift or
    breaks[j] = 0x7f; and exactly when no entry matches, construction
    goes on to read the index, which was never assigned. *)
Theorem sample_index_assigned_iff_break_matches
    {C : Partial.Collaborators} key partialId instrumentIndex rom pcm LFO
    s partId j :
  let ip := Partial.instrument rom instrumentIndex partialId in
  let rp := Partial.partial rom (Partial.partialIndex ip) in
  let isDrum := negb (Partial.UseForRhythm s partId =? 0)%Z in
  let k := (key + Partial.key_shift rom s partId isDrum)%Z in
  ((exists i, (0 <= i < 16)%Z /\
              (Partial.breaks rp i >= k \/ Partial.breaks rp i = 127)%Z)
   <-> Partial.break_walk rp k <> Partial.Unassigned)
  /\
  ((forall i, (0 <= i < 16)%Z ->
              (Partial.breaks rp i < k /\ Partial.breaks rp i <> 127)%Z)
   <-> Partial.new key partialId instrumentIndex rom pcm LFO s partId j
       = Fault UninitRead).
Proof.
  intros ip rp isDrum k.
  pose proof (break_walk_from_unassigned rp k 16 0) as Hw.
  fold (Partial.break_walk rp k) in Hw.
  assert (Hnone :
    (forall i, (0 <= i < 16)%Z ->
       (Partial.breaks rp i < k /\ Partial.breaks rp i <> 127)%Z)
    <-> Partial.break_walk rp k = Partial.Unassigned).
  { rewrite Hw. split; intros H i Hi.
    - apply break_matches_false. apply H. lia.
    - apply break_matches_false. apply H. simpl. lia. }
  split.
  - split.
    + intros (i & Hi & Hm) Hu.
      pose proof (proj2 Hnone Hu i Hi). lia.
    + intro Hne.
      destruct (break_walk_from_assigned rp k 16 0 Hne) as (i & Hi & Hm).
      exists i. split; [simpl in Hi; lia|].
      apply break_matches_true. exact Hm.
  - rewrite Hnone, new_after_walk. fold ip isDrum k rp.
    destruct (Partial.break_walk rp k); split; congruence.
Qed.

Example new_without_matching_break :
  Partial.new (C := Demo.collab) 60 0 0 Demo.rom_short Demo.pcm_rom (tt, tt)
    Demo.settings 0 Demo.junk0 = Fault UninitRead.
Proof. reflexivity. Qed.

Example new_with_matching_break :
  exists p,
    Partial.new (C := Demo.collab) 60 0 0 Demo.rom_ok Demo.pcm_rom (tt, tt)
      Demo.settings 0 Demo.junk0 = Ok p
    /\ Partial._tva p = Some false
    /\ Partial._pcmSamples p = Some Demo.pcm10.
Proof. eexists. split; [reflexivity|]. split; reflexivity. Qed.

(** ** A partial whose construction bailed out *)

(** When the walk selects 0xffff the constructor returns before any of
    the modulators is created: the three pointers keep the NULL of the
    initialiser list, and the first thing [get_next_sample] does is call
    [_tva->finished()]. *)
Lemma bailed_out_null_deref {C : Partial.Collaborators}
    key partialId instrumentIndex rom pcm LFO s partId j :
  let ip := Partial.instrument rom instrumentIndex partialId in
  let isDrum := negb (Partial.UseForRhythm s partId =? 0)%Z in
  let k := (key + Partial.key_shift rom s partId isDrum)%Z in
  Partial.break_walk (Partial.partial rom (Partial.partialIndex ip)) k
    = Partial.Invalid ->
  exists p,
    Partial.new key partialId instrumentIndex rom pcm LFO s partId j = Ok p
    /\ Partial._tva p = None
    /\ forall fuel noteSample,
         Partial.get_next_sample fuel p noteSample = Fault NullDeref.
Proof.
  intros ip isDrum k Hw. rewrite new_after_walk. fold ip isDrum k.
  rewrite Hw. eexists. split; [reflexivity|]. split; reflexivity.
Qed.

(** C1, on the code.  A break table whose first matching entry holds
    0xffff makes construction bail out; the resulting partial has no
    TVA, and its first [get_next_sample] does not return "terminated":
    it dereferences the NULL [_tva]. *)
Theorem failed_construction_first_sample :
  exists p,
    Partial.new (C := Demo.collab) 60 0 0 Demo.rom_invalid Demo.pcm_rom
      (tt, tt) Demo.settings 0 Demo.junk0 = Ok p
    /\ Partial._tva p = None
    /\ Partial.get_next_sample 16 p (0, 0)%Q = Fault NullDeref
    /\ Partial.get_next_sample 16 p (0, 0)%Q <> Ok (p, (0, 0)%Q, true).
Proof.
  eexists. split; [reflexivity|]. split; [reflexivity|].
  split; [reflexivity|discriminate].
Qed.

(** ** The caller's accumulator *)

(** C9.  Whenever [get_next_sample] returns terminated = true, the
    caller's [noteSample[0..1]] is what it was before the call: both
    [return 1] statements come before the two [+=]. *)
Theorem terminated_leaves_noteSample
    {C : Partial.Collaborators} fuel p noteSample p' noteSample' :
  Partial.get_next_sample fuel p noteSample = Ok (p', noteSample', true) ->
  noteSample' = noteSample.
Proof.
  unfold Partial.get_next_sample.
  destruct (Partial._tva p) as [tva|]; simpl; [|discriminate].
  destruct (Partial.tva_finished tva).
  - intro H. injection H as _ <-. reflexivity.
  - destruct (Partial._tvp p) as [tvp|]; simpl; [|discriminate].
    destruct (Partial._next_sample_from_rom _ _ _) as [[p1 b]|f]; simpl;
      [|discriminate].
    destruct b.
    + intro H. injection H as _ <-. reflexivity.
    + destruct (Partial._ctrlSample p1); simpl; discriminate.
Qed.

Lemma terminated_leaves_noteSample_witness :
  Partial.get_next_sample (C := Demo.collab) 16 Demo.voice_finished
    (1, 2)%Q = Ok (Demo.voice_finished, (1, 2)%Q, true)
  /\ (1, 2)%Q = (1, 2)%Q.
Proof.
  split; [reflexivity|].
  apply (terminated_leaves_noteSample (C := Demo.collab) 16
           Demo.voice_finished (1, 2)%Q Demo.voice_finished (1, 2)%Q).
  reflexivity.
Defined.

(** The other way to terminate: the forward-stop sample of [Demo.voice]
    runs past its end on the tenth frame, which adds nothing to what the
    nine frames before it accumulated. *)
Example forward_stop_leaves_noteSample :
  exists p ns p',
    Partial.frames (C := Demo.collab) 16 9 Demo.voice (0, 0)%Q
      = Ok (p, ns, false)
    /\ (fst ns == 36)%Q
    /\ Partial.get_next_sample 16 p ns = Ok (p', ns, true).
Proof.
  eexists. eexists. eexists.
  split; [vm_compute; reflexivity|].
  split; [reflexivity|].
  vm_compute. reflexivity.
Qed.

(** ** The envelope *)

Section Envelope.
Import AHDSR.
Local Open Scope Z_scope.

Lemma init_new_phase_fields s p e :
  p <> ahdsr_Off ->
  exists e1,
    _init_new_phase s p e = Ok e1
    /\ _phase e1 = p
    /\ _phaseSampleIndex e1 = 0
    /\ _finished e1 = _finished e
    /\ _currentValue e1 = _currentValue e
    /\ _phaseInitValue e1 = _currentValue e
    /\ _phaseValue e1 = _phaseValue e
    /\ _phaseShape e1 = _phaseShape e.
Proof.
  intro Hp. destruct p; [contradiction| | | | |];
    (eexists; split; [reflexivity|]; cbn; repeat split).
Qed.

(** In the Release phase every table read is inside its table. *)
Lemma sample_value_release e :
  _phase e = ahdsr_Release ->
  exists v, sample_value e = Ok (emit e v).
Proof.
  intro Hp. unfold sample_value, shape_read. rewrite Hp.
  cbn [phase_index Z.sub].
  destruct (_phaseSampleLen e <=? 0); cbn.
  - eexists. reflexivity.
  - destruct (a3 (_phaseShape e)); cbn; eexists; reflexivity.
Qed.

Lemma release_spent s e :
  _phase e = ahdsr_Release ->
  _phaseSampleIndex e > _phaseSampleLen e ->
  get_next_value s e = Ok (set_finished e, 0%R).
Proof.
  intros Hp Hi. unfold get_next_value, phase_over. rewrite Hp.
  destruct (Z.gtb_spec (_phaseSampleIndex e) (_phaseSampleLen e)); [|lia].
  reflexivity.
Qed.

Lemma release_running s e :
  _phase e = ahdsr_Release ->
  _phaseSampleIndex e <= _phaseSampleLen e ->
  exists v, get_next_value s e = Ok (emit e v).
Proof.
  intros Hp Hi. unfold get_next_value, phase_over. rewrite Hp.
  destruct (Z.gtb_spec (_phaseSampleIndex e) (_phaseSampleLen e)); [lia|].
  apply sample_value_release. exact Hp.
Qed.

End Envelope.

(** ** Release *)

Section Release.
Import AHDSR.
Local Open Scope Z_scope.

Lemma run_S s k e :
  run s (S k) e =
  (r <- get_next_value s e ;;
   r' <- run s k (fst r) ;; Ok (fst r', snd r :: snd r')).
Proof. reflexivity. Qed.

Lemma set_finished_id e : _finished e = true -> set_finished e = e.
Proof. destruct e; cbn. intros ->. reflexivity. Qed.

(** Once the Release phase is spent and the envelope finished, every
    further call returns zero and changes nothing. *)
Lemma finished_stays s e :
  _phase e = ahdsr_Release ->
  _phaseSampleIndex e > _phaseSampleLen e ->
  _finished e = true ->
  forall k, run s k e = Ok (e, repeat 0%R k).
Proof.
  intros Hp Hi Hf. induction k as [|k IH]; [reflexivity|].
  rewrite run_S, (release_spent s e Hp Hi), (set_finished_id e Hf).
  cbn [bind fst snd]. rewrite IH. reflexivity.
Qed.

Lemma repeat_snoc (x : R) k : x :: repeat x k = repeat x k ++ [x].
Proof. induction k as [|k IH]; cbn; [reflexivity|]. rewrite <- IH. reflexivity. Qed.

(** [k + 1] calls are enough when at most [k] samples of the Release
    phase are left: the last call finds the phase spent. *)
Lemma release_runs_out s :
  forall k e,
  _phase e = ahdsr_Release ->
  _phaseSampleLen e - _phaseSampleIndex e + 1 <= Z.of_nat k ->
  exists e2 vs,
    run s (S k) e = Ok (e2, vs ++ [0%R]) /\ _finished e2 = true.
Proof.
  induction k as [|k IH]; intros e Hp Hk.
  - assert (Hi : _phaseSampleIndex e > _phaseSampleLen e) by lia.
    exists (set_finished e), []. cbn [run].
    rewrite (release_spent s e Hp Hi). cbn. auto.
  - destruct (Z_gt_le_dec (_phaseSampleIndex e) (_phaseSampleLen e))
      as [Hi|Hi].
    + exists (set_finished e), (repeat 0%R (S k)).
      rewrite run_S, (release_spent s e Hp Hi). cbn [bind fst snd].
      rewrite (finished_stays s (set_finished e) Hp Hi eq_refl (S k)).
      cbn [bind fst snd]. split; [|reflexivity].
      rewrite <- repeat_snoc. reflexivity.
    + destruct (release_running s e Hp Hi) as [v Hv].
      destruct (IH (fst (emit e v))) as (e2 & vs & Hrun & Hf).
      * exact Hp.
      * cbn. lia.
      * exists e2, (v :: vs). split; [|exact Hf].
        rewrite run_S, Hv. cbn [bind]. rewrite Hrun. reflexivity.
Qed.

(** While samples of the Release phase are left, calls only count. *)
Lemma release_counts s :
  forall k e,
  _phase e = ahdsr_Release ->
  _phaseSampleIndex e + Z.of_nat k <= _phaseSampleLen e + 1 ->
  exists e2 vs,
    run s k e = Ok (e2, vs)
    /\ _finished e2 = _finished e
    /\ _phase e2 = ahdsr_Release
    /\ _phaseSampleIndex e2 = _phaseSampleIndex e + Z.of_nat k.
Proof.
  induction k as [|k IH]; intros e Hp Hk.
  - exists e, []. cbn [run Z.of_nat]. repeat split; auto. lia.
  - destruct (release_running s e Hp) as [v Hv]; [lia|].
    destruct (IH (fst (emit e v))) as (e2 & vs & Hrun & Hf & Hp2 & Hi2).
    + exact Hp.
    + cbn. lia.
    + exists e2, (v :: vs). rewrite run_S, Hv. cbn [bind].
      rewrite Hrun. cbn [bind fst snd].
      cbn in Hf, Hi2. repeat split; auto. lia.
Qed.

Lemma release_enters s e :
  exists e1, release s e = Ok e1 /\ _phase e1 = ahdsr_Release.
Proof.
  unfold release, phase_eqb.
  destruct (Z.eqb_spec (phase_index (_phase e)) (phase_index ahdsr_Release))
    as [H|H].
  - exists e. split; [reflexivity|]. destruct (_phase e); cbn in H; try lia.
    reflexivity.
  - destruct (init_new_phase_fields s ahdsr_Release e) as (e1 & H1 & H2 & _).
    + discriminate.
    + exists e1. auto.
Qed.

End Release.

(** ** The envelope on concrete inputs *)

Section EnvelopeRuns.
Import AHDSR.

Lemma round_eq (x : R) (z : Z) :
  (0 <= x)%R -> (IZR z - / 2 <= x < IZR z + / 2)%R -> round x = z.
Proof.
  intros H0 [H1 H2]. unfold round.
  destruct (Rle_dec 0 x); [|contradiction].
  symmetry. apply Int_part_spec. split; rlra.
Qed.

(** Duration 18 at key 0 and 100 Hz: 18 samples. *)
Lemma eighteen_samples :
  round (_convert_time_to_sec 18 0 * IZR 100)%R = 18%Z.
Proof.
  unfold _convert_time_to_sec. cbn.
  replace (18 / 18)%R with 1%R by rlra.
  rewrite Rpower_1 by rlra.
  apply round_eq; rlra.
Qed.

Lemma started_state :
  start EnvDemo.settings EnvDemo.envelope = Ok EnvDemo.started
  /\ _phase EnvDemo.started = ahdsr_Attack
  /\ _phaseSampleIndex EnvDemo.started = 0%Z
  /\ _phaseSampleLen EnvDemo.started = 18%Z.
Proof.
  split; [reflexivity|]. split; [reflexivity|]. split; [reflexivity|].
  exact eighteen_samples.
Qed.

Lemma released_state :
  release EnvDemo.settings EnvDemo.started = Ok EnvDemo.released
  /\ _phase EnvDemo.released = ahdsr_Release
  /\ _finished EnvDemo.released = false
  /\ _phaseSampleIndex EnvDemo.released = 0%Z
  /\ _phaseSampleLen EnvDemo.released = 18%Z.
Proof.
  split; [reflexivity|]. split; [reflexivity|]. split; [reflexivity|].
  split; [reflexivity|]. exact eighteen_samples.
Qed.

End EnvelopeRuns.

(** C2, as the code has it.  After [release()], samples-in-release-phase
    + 2 calls of [get_next_value] are enough: all of them return, the
    envelope is then finished, and the last call returned zero.  (A
    call finds the phase spent only when the sample index exceeds the
    phase length, and the index starts at 0.) *)
Theorem release_finishes s e e1 :
  AHDSR.release s e = Ok e1 ->
  (0 <= AHDSR._phaseSampleIndex e1)%Z ->
  exists e2 vs,
    AHDSR.run s (Z.to_nat (AHDSR._phaseSampleLen e1) + 2) e1
      = Ok (e2, vs ++ [0%R])
    /\ AHDSR._finished e2 = true.
Proof.
  intros Hrel Hidx.
  destruct (release_enters s e) as (e1' & Hrel' & Hp).
  rewrite Hrel in Hrel'. injection Hrel' as <-.
  replace (Z.to_nat (AHDSR._phaseSampleLen e1) + 2)%nat
    with (S (Z.to_nat (AHDSR._phaseSampleLen e1) + 1)) by lia.
  apply release_runs_out; [exact Hp|lia].
Qed.

Lemma release_finishes_witness :
  AHDSR.release EnvDemo.settings EnvDemo.started = Ok EnvDemo.released
  /\ (0 <= AHDSR._phaseSampleIndex EnvDemo.released)%Z
  /\ exists e2 vs,
       AHDSR.run EnvDemo.settings
         (Z.to_nat (AHDSR._phaseSampleLen EnvDemo.released) + 2)
         EnvDemo.released = Ok (e2, vs ++ [0%R])
       /\ AHDSR._finished e2 = true.
Proof.
  split; [reflexivity|]. split; [simpl; lia|].
  apply (release_finishes EnvDemo.settings EnvDemo.started EnvDemo.released).
  - reflexivity.
  - simpl. lia.
Defined.

(** C2, as stated, fails.  The demo envelope has 18 samples in its
    Release phase; after [start()] and [release()], 18 + 1 calls of
    [get_next_value] all return and leave [finished] false: the
    nineteenth call still finds index 18 <= 18, so the flag is false
    after each of the first 18 + 1 calls. *)
Lemma release_finishes_counterexample :
  AHDSR.start EnvDemo.settings EnvDemo.envelope = Ok EnvDemo.started
  /\ AHDSR.release EnvDemo.settings EnvDemo.started = Ok EnvDemo.released
  /\ AHDSR._phaseSampleLen EnvDemo.released = 18%Z
  /\ forall k, (k <= 18 + 1)%nat ->
     exists e2 vs,
       AHDSR.run EnvDemo.settings k EnvDemo.released = Ok (e2, vs)
       /\ AHDSR._finished e2 = false.
Proof.
  destruct released_state as (Hrel & Hp & Hf & Hi & Hl).
  split; [reflexivity|]. split; [exact Hrel|]. split; [exact Hl|].
  intros k Hk.
  destruct (release_counts EnvDemo.settings k EnvDemo.released Hp)
    as (e2 & vs & Hrun & Hf2 & _).
  - rewrite Hi, Hl. lia.
  - exists e2, vs. split; [exact Hrun|]. rewrite Hf2. exact Hf.
Qed.

(** ** Sustain *)

(** C6.  In the Sustain phase with the sample index past the phase
    length: when the sustain target is zero the call moves the envelope
    to Release; otherwise the call returns the current value and leaves
    the whole state, the sample index included, as it was, so any number
    of calls keeps returning that value. *)
Theorem sustain_past_its_length s e :
  AHDSR._phase e = AHDSR.ahdsr_Sustain ->
  (AHDSR._phaseSampleIndex e > AHDSR._phaseSampleLen e)%Z ->
  (AHDSR.a3 (AHDSR._phaseValue e) = 0%R ->
     exists e' v,
       AHDSR.get_next_value s e = Ok (e', v)
       /\ AHDSR._phase e' = AHDSR.ahdsr_Release)
  /\
  (AHDSR.a3 (AHDSR._phaseValue e) <> 0%R ->
     AHDSR.get_next_value s e = Ok (e, AHDSR._currentValue e)
     /\ forall n,
          AHDSR.run s n e = Ok (e, repeat (AHDSR._currentValue e) n)).
Proof.
  intros Hp Hi.
  assert (Hover : AHDSR.phase_over e = true).
  { unfold AHDSR.phase_over. apply Z.gtb_lt. lia. }
  assert (Hstep : AHDSR.a3 (AHDSR._phaseValue e) <> 0%R ->
                  AHDSR.get_next_value s e = Ok (e, AHDSR._currentValue e)).
  { intro Hv. unfold AHDSR.get_next_value. rewrite Hp, Hover.
    cbn [AHDSR.at5 AHDSR.phase_index bind].
    destruct (Req_dec_T (AHDSR.a3 (AHDSR._phaseValue e)) 0);
      [contradiction|reflexivity]. }
  split.
  - intro Hv. unfold AHDSR.get_next_value. rewrite Hp, Hover.
    cbn [AHDSR.at5 AHDSR.phase_index bind].
    destruct (Req_dec_T (AHDSR.a3 (AHDSR._phaseValue e)) 0);
      [|contradiction].
    destruct (init_new_phase_fields s AHDSR.ahdsr_Release e)
      as (e1 & H1 & Hp1 & _); [discriminate|].
    rewrite H1. cbn [bind].
    destruct (sample_value_release e1 Hp1) as [v Hv1].
    rewrite Hv1. exists (fst (AHDSR.emit e1 v)), v.
    split; [reflexivity|exact Hp1].
  - intro Hv. split; [exact (Hstep Hv)|].
    induction n as [|n IH]; [reflexivity|].
    rewrite run_S, (Hstep Hv). cbn [bind fst snd]. rewrite IH. reflexivity.
Qed.

Lemma sustain_past_its_length_witness :
  (AHDSR._phase EnvDemo.sustaining = AHDSR.ahdsr_Sustain
   /\ (AHDSR._phaseSampleIndex EnvDemo.sustaining
       > AHDSR._phaseSampleLen EnvDemo.sustaining)%Z
   /\ AHDSR.get_next_value EnvDemo.settings EnvDemo.sustaining
        = Ok (EnvDemo.sustaining, (1 / 2)%R))
  /\
  (AHDSR._phase EnvDemo.fading = AHDSR.ahdsr_Sustain
   /\ (AHDSR._phaseSampleIndex EnvDemo.fading
       > AHDSR._phaseSampleLen EnvDemo.fading)%Z
   /\ exists e' v,
        AHDSR.get_next_value EnvDemo.settings EnvDemo.fading = Ok (e', v)
        /\ AHDSR._phase e' = AHDSR.ahdsr_Release).
Proof.
  split.
  - split; [reflexivity|]. split; [reflexivity|].
    apply (sustain_past_its_length EnvDemo.settings EnvDemo.sustaining);
      [reflexivity|reflexivity|].
    simpl. rlra.
  - split; [reflexivity|]. split; [reflexivity|].
    apply (sustain_past_its_length EnvDemo.settings EnvDemo.fading);
      reflexivity.
Defined.

(** ** Releasing twice *)

(** C8.  [release()] always returns with the envelope in the Release
    phase, a second [release()] (whatever the settings are by then)
    returns the very same state, and so the values [get_next_value]
    returns afterwards are the same after two calls as after one. *)
Theorem release_idempotent s s' e :
  exists e1,
    AHDSR.release s e = Ok e1
    /\ AHDSR.release s' e1 = Ok e1
    /\ forall n,
         (e2 <- AHDSR.release s' e1 ;; AHDSR.run s' n e2) = AHDSR.run s' n e1.
Proof.
  destruct (release_enters s e) as (e1 & Hrel & Hp).
  assert (H2 : AHDSR.release s' e1 = Ok e1).
  { unfold AHDSR.release. rewrite Hp. reflexivity. }
  exists e1. split; [exact Hrel|]. split; [exact H2|].
  intro n. rewrite H2. reflexivity.
Qed.

(** ** The shape of a phase *)

Section Shape.
Import AHDSR.
Local Open Scope Z_scope.

Lemma ln_gt_0 (x : R) : (1 < x)%R -> (0 < ln x)%R.
Proof. intro H. rewrite <- ln_1. apply ln_increasing; rlra. Qed.

(** The source's quotient of natural logarithms is the quotient of
    decimal logarithms, and its argument is 10 p + 1. *)
Lemma concave_log10 init target idx len :
  concave init target idx len =
  (init + (target - init)
          * (log10 (10 * (IZR idx / IZR len) + 1) / log10 11))%R.
Proof.
  unfold concave, log10.
  pose proof (ln_gt_0 10 ltac:(rlra)) as H10.
  pose proof (ln_gt_0 11 ltac:(rlra)) as H11.
  replace (10 + 1)%R with 11%R by rlra.
  replace (10 * IZR idx / IZR len)%R with (10 * (IZR idx / IZR len))%R
    by (unfold Rdiv; ring).
  f_equal. f_equal. field. split; apply Rgt_not_eq; assumption.
Qed.

Lemma shape_read_by_phase e :
  shape_read e =
  match _phase e with
  | ahdsr_Off | ahdsr_Attack => Fault OutOfBounds
  | ahdsr_Hold => Ok (a0 (_phaseShape e))
  | ahdsr_Decay => Ok (a1 (_phaseShape e))
  | ahdsr_Sustain => Ok (a2 (_phaseShape e))
  | ahdsr_Release => Ok (a3 (_phaseShape e))
  end.
Proof. unfold shape_read. destruct (_phase e); reflexivity. Qed.

(** From Hold to Release, a phase of non-zero length yields the linear
    or the logarithmic value according to the flag read. *)
Lemma sample_value_shaped e sh :
  0 < _phaseSampleLen e ->
  shape_read e = Ok sh ->
  exists target,
    at5 (_phaseValue e) (phase_index (_phase e)) = Ok target
    /\ sample_value e =
       Ok (emit e
             ((if sh then concave else linear)
                (_phaseInitValue e) target
                (_phaseSampleIndex e) (_phaseSampleLen e))).
Proof.
  intros Hlen Hsh. unfold sample_value.
  destruct (Z.leb_spec (_phaseSampleLen e) 0); [lia|].
  rewrite Hsh. cbn [bind]. unfold shape_read in Hsh.
  destruct (_phase e); cbn in Hsh; try discriminate;
    (eexists; split; [reflexivity|]; destruct sh; reflexivity).
Qed.

(** In the Attack phase the index is -1, which is outside the table. *)
Lemma attack_reads_outside_table s e :
  _phase e = ahdsr_Attack ->
  _phaseSampleIndex e <= _phaseSampleLen e ->
  0 < _phaseSampleLen e ->
  get_next_value s e = Fault OutOfBounds.
Proof.
  intros Hp Hi Hlen. unfold get_next_value, phase_over. rewrite Hp.
  destruct (Z.gtb_spec (_phaseSampleIndex e) (_phaseSampleLen e)); [lia|].
  cbn [bind]. unfold sample_value, shape_read. rewrite Hp.
  destruct (Z.leb_spec (_phaseSampleLen e) 0); [lia|].
  reflexivity.
Qed.

End Shape.

(** C7, on the code.  Right after [start()] the demo envelope is in the
    Attack phase with 18 samples to go, and the first [get_next_value]
    reads [_phaseShape[_phase - 1]] = [_phaseShape[-1]]: no entry of the
    five-entry table, so the call has no defined per-sample output. *)
Theorem attack_shape_flag_outside_table :
  AHDSR.start EnvDemo.settings EnvDemo.envelope = Ok EnvDemo.started
  /\ AHDSR._phase EnvDemo.started = AHDSR.ahdsr_Attack
  /\ AHDSR._phaseSampleLen EnvDemo.started = 18%Z
  /\ (AHDSR.phase_index (AHDSR._phase EnvDemo.started) - 1 = -1)%Z
  /\ AHDSR.get_next_value EnvDemo.settings EnvDemo.started
     = Fault OutOfBounds.
Proof.
  destruct started_state as (Hs & Hp & Hi & Hl).
  split; [exact Hs|]. split; [exact Hp|]. split; [exact Hl|].
  split; [reflexivity|].
  apply attack_reads_outside_table; [exact Hp|rewrite Hi, Hl; lia|].
  rewrite Hl. lia.
Qed.

(** * Further properties of the envelope *)

Section EnvelopeSteps.
Import AHDSR.
Local Open Scope Z_scope.

Lemma sample_value_emits e r :
  sample_value e = Ok r -> exists v, r = emit e v.
Proof.
  unfold sample_value.
  destruct (_phaseSampleLen e <=? 0).
  - destruct (at5 (_phaseValue e) (phase_index (_phase e))) as [v|];
      cbn [bind]; [|discriminate].
    intro H. injection H as <-. eauto.
  - destruct (shape_read e) as [sh|]; cbn [bind]; [|discriminate].
    destruct (at5 (_phaseValue e) (phase_index (_phase e))) as [v|];
      cbn [bind]; [|discriminate].
    destruct (negb sh); intro H; injection H as <-; eauto.
Qed.

(** The three ways a call of [get_next_value] can return: without
    touching the envelope (Off, or a held sustain), by finishing a spent
    Release, or by emitting a sample of the current phase or, when that
    one is spent, of the next. *)
Lemma get_next_value_cases s e e' v :
  get_next_value s e = Ok (e', v) ->
  (e' = e /\ (_phase e = ahdsr_Off \/ _phase e = ahdsr_Sustain))
  \/ (e' = set_finished e /\ v = 0%R /\ _phase e = ahdsr_Release
      /\ phase_over e = true)
  \/ (exists e1,
        (e', v) = emit e1 v
        /\ _phase e <> ahdsr_Off
        /\ ((e1 = e /\ phase_over e = false)
            \/ (phase_over e = true /\ _phase e <> ahdsr_Release
                /\ _init_new_phase s (next_phase (_phase e)) e = Ok e1))).
Proof.
  unfold get_next_value.
  destruct (_phase e) eqn:Hp; cbn [next_phase].
  - intro H. injection H as <- <-. left. auto.
  - destruct (phase_over e) eqn:Ho.
    + destruct (_init_new_phase s ahdsr_Hold e) as [e1|] eqn:Hi;
        cbn [bind]; [|discriminate].
      intro H. destruct (sample_value_emits _ _ H) as [v' Hv].
      right. right. exists e1. injection Hv as -> ->.
      split; [reflexivity|]. split; [discriminate|].
      right. split; [reflexivity|]. split; [discriminate|reflexivity].
    + cbn [bind]. intro H. destruct (sample_value_emits _ _ H) as [v' Hv].
      right. right. exists e. injection Hv as -> ->.
      split; [reflexivity|]. split; [discriminate|]. left. auto.
  - destruct (phase_over e) eqn:Ho.
    + destruct (_init_new_phase s ahdsr_Decay e) as [e1|] eqn:Hi;
        cbn [bind]; [|discriminate].
      intro H. destruct (sample_value_emits _ _ H) as [v' Hv].
      right. right. exists e1. injection Hv as -> ->.
      split; [reflexivity|]. split; [discriminate|].
      right. split; [reflexivity|]. split; [discriminate|reflexivity].
    + cbn [bind]. intro H. destruct (sample_value_emits _ _ H) as [v' Hv].
      right. right. exists e. injection Hv as -> ->.
      split; [reflexivity|]. split; [discriminate|]. left. auto.
  - destruct (phase_over e) eqn:Ho.
    + destruct (_init_new_phase s ahdsr_Sustain e) as [e1|] eqn:Hi;
        cbn [bind]; [|discriminate].
      intro H. destruct (sample_value_emits _ _ H) as [v' Hv].
      right. right. exists e1. injection Hv as -> ->.
      split; [reflexivity|]. split; [discriminate|].
      right. split; [reflexivity|]. split; [discriminate|reflexivity].
    + cbn [bind]. intro H. destruct (sample_value_emits _ _ H) as [v' Hv].
      right. right. exists e. injection Hv as -> ->.
      split; [reflexivity|]. split; [discriminate|]. left. auto.
  - destruct (phase_over e) eqn:Ho.
    + cbn [at5 phase_index bind].
      destruct (Req_dec_T (a3 (_phaseValue e)) 0).
      * destruct (_init_new_phase s ahdsr_Release e) as [e1|] eqn:Hi;
          cbn [bind]; [|discriminate].
        intro H. destruct (sample_value_emits _ _ H) as [v' Hv].
        right. right. exists e1. injection Hv as -> ->.
        split; [reflexivity|]. split; [discriminate|].
        right. split; [reflexivity|]. split; [discriminate|reflexivity].
      * intro H. injection H as <- <-. left. auto.
    + intro H. destruct (sample_value_emits _ _ H) as [v' Hv].
      right. right. exists e. injection Hv as -> ->.
      split; [reflexivity|]. split; [discriminate|]. left. auto.
  - destruct (phase_over e) eqn:Ho.
    + intro H. injection H as <- <-. right. left. auto.
    + intro H. destruct (sample_value_emits _ _ H) as [v' Hv].
      right. right. exists e. injection Hv as -> ->.
      split; [reflexivity|]. split; [discriminate|]. left. auto.
Qed.

Lemma init_new_phase_config s p e e1 :
  _init_new_phase s p e = Ok e1 ->
  config e1 = config e /\ _finished e1 = _finished e
  /\ (p <> ahdsr_Off -> _phase e1 = p).
Proof.
  unfold _init_new_phase.
  destruct (phase_eqb p ahdsr_Off) eqn:E.
  - intro H. injection H as <-. repeat split.
    intro Hp. destruct p; try discriminate. contradiction.
  - destruct (at5 (_phaseDuration e) (phase_index p)); cbn [bind];
      [|discriminate].
    intro H. injection H as <-. repeat split.
Qed.

End EnvelopeSteps.

Section EnvelopeRunsInv.
Import AHDSR.
Local Open Scope Z_scope.

Lemma emit_fields e v :
  config (fst (emit e v)) = config e
  /\ _phase (fst (emit e v)) = _phase e
  /\ _finished (fst (emit e v)) = _finished e.
Proof. repeat split. Qed.

Lemma get_next_value_config s e e' v :
  get_next_value s e = Ok (e', v) -> config e' = config e.
Proof.
  intro H. apply get_next_value_cases in H.
  destruct H as [[-> _]|[(-> & _)|(e1 & He & _ & [[-> _]|(_ & _ & Hi)])]];
    try reflexivity.
  - injection He as ->. reflexivity.
  - injection He as ->. apply init_new_phase_config in Hi.
    destruct Hi as [Hc _]. exact Hc.
Qed.

Lemma get_next_value_phase s e e' v :
  get_next_value s e = Ok (e', v) ->
  _phase e' = _phase e
  \/ (_phaseSampleIndex e > _phaseSampleLen e
      /\ _phase e <> ahdsr_Off /\ _phase e <> ahdsr_Release
      /\ _phase e' = next_phase (_phase e)).
Proof.
  intro H. apply get_next_value_cases in H.
  destruct H as [[-> _]|[(-> & _)|(e1 & He & Hoff & [[-> _]|(Ho & Hr & Hi)])]];
    try (left; reflexivity).
  - injection He as ->. left. reflexivity.
  - injection He as ->. right.
    apply init_new_phase_config in Hi. destruct Hi as (_ & _ & Hp).
    unfold phase_over in Ho. apply Z.gtb_lt in Ho.
    repeat split; [lia|exact Hoff|exact Hr|].
    cbn [emit fst _phase]. apply Hp.
    destruct (_phase e); cbn; congruence.
Qed.

Lemma get_next_value_finished s e e' v :
  get_next_value s e = Ok (e', v) ->
  (_finished e = true -> _finished e' = true)
  /\ (_finished e' = true ->
      _finished e = true \/ (_phase e' = ahdsr_Release /\ v = 0%R)).
Proof.
  intro H. apply get_next_value_cases in H.
  destruct H as [[-> _]|[(-> & -> & Hp & _)|(e1 & He & _ & [[-> _]|(_ & _ & Hi)])]].
  - auto.
  - split; [reflexivity|]. intros _. right. auto.
  - injection He as ->. cbn. auto.
  - injection He as ->. apply init_new_phase_config in Hi.
    destruct Hi as (_ & Hf & _). cbn. rewrite Hf. auto.
Qed.

Lemma run_phase_order s n :
  forall e e' vs,
  run s n e = Ok (e', vs) ->
  phase_index (_phase e) <= phase_index (_phase e')
  /\ (_phase e <> ahdsr_Off -> _phase e' <> ahdsr_Off).
Proof.
  induction n as [|n IH]; intros e e' vs.
  - cbn. intro H. injection H as <- _. split; [lia|auto].
  - rewrite run_S.
    destruct (get_next_value s e) as [[e1 v]|] eqn:E1; cbn [bind fst snd];
      [|discriminate].
    destruct (run s n e1) as [[e2 vs2]|] eqn:E2; cbn [bind fst snd];
      [|discriminate].
    intro H. injection H as <- _.
    destruct (IH _ _ _ E2) as [Hle Hoff].
    apply get_next_value_phase in E1.
    assert (Hstep : phase_index (_phase e) <= phase_index (_phase e1)
                    /\ (_phase e <> ahdsr_Off -> _phase e1 <> ahdsr_Off)).
    { destruct E1 as [->|(_ & Hno & Hnr & ->)]; [split; [lia|auto]|].
      destruct (_phase e); cbn; split; try lia; congruence. }
    destruct Hstep as [H1 H2]. split; [lia|auto].
Qed.

End EnvelopeRunsInv.

(** X1.  No number of [get_next_value] calls changes what the
    constructor stored: sample rate, key, part id, terminal phase and
    the three five-entry tables. *)
Theorem run_keeps_configuration s n e e' vs :
  AHDSR.run s n e = Ok (e', vs) -> AHDSR.config e' = AHDSR.config e.
Proof.
  revert e e' vs. induction n as [|n IH]; intros e e' vs.
  - cbn. intro H. injection H as <- _. reflexivity.
  - rewrite run_S.
    destruct (AHDSR.get_next_value s e) as [[e1 v]|] eqn:E1; cbn [bind fst snd];
      [|discriminate].
    destruct (AHDSR.run s n e1) as [[e2 vs2]|] eqn:E2; cbn [bind fst snd];
      [|discriminate].
    intro H. injection H as <- _.
    rewrite (IH _ _ _ E2). eapply get_next_value_config; eauto.
Qed.

Lemma run_keeps_configuration_witness :
  AHDSR.run EnvDemo.settings 1 EnvDemo.holding
    = Ok (fst (AHDSR.emit EnvDemo.holding
                 (AHDSR.linear 1 1 3 18)),
          [AHDSR.linear 1 1 3 18])
  /\ AHDSR.config
       (fst (AHDSR.emit EnvDemo.holding (AHDSR.linear 1 1 3 18)))
     = AHDSR.config EnvDemo.holding.
Proof.
  split; [reflexivity|].
  apply (run_keeps_configuration EnvDemo.settings 1 EnvDemo.holding _
           [AHDSR.linear 1 1 3 18]).
  reflexivity.
Defined.

(** X2.  Along any run of [get_next_value] the phase only moves forward
    in the order Off, Attack, Hold, Decay, Sustain, Release, and an
    envelope that has left Off never returns to it. *)
Theorem run_moves_phase_forward s n e e' vs :
  AHDSR.run s n e = Ok (e', vs) ->
  (AHDSR.phase_index (AHDSR._phase e)
     <= AHDSR.phase_index (AHDSR._phase e'))%Z
  /\ (AHDSR._phase e <> AHDSR.ahdsr_Off ->
      AHDSR._phase e' <> AHDSR.ahdsr_Off).
Proof. apply run_phase_order. Qed.

Lemma run_moves_phase_forward_witness :
  AHDSR.run EnvDemo.settings 1 EnvDemo.holding
    = Ok (fst (AHDSR.emit EnvDemo.holding (AHDSR.linear 1 1 3 18)),
          [AHDSR.linear 1 1 3 18])
  /\ (AHDSR.phase_index (AHDSR._phase EnvDemo.holding)
        <= AHDSR.phase_index
             (AHDSR._phase
                (fst (AHDSR.emit EnvDemo.holding (AHDSR.linear 1 1 3 18)))))%Z.
Proof.
  split; [reflexivity|].
  apply (run_moves_phase_forward EnvDemo.settings 1 EnvDemo.holding _
           [AHDSR.linear 1 1 3 18]).
  reflexivity.
Defined.

(** X3.  [finished] is never reset by [get_next_value], and a run can
    only set it in the Release phase. *)
Theorem run_finishes_only_in_release s n e e' vs :
  AHDSR.run s n e = Ok (e', vs) ->
  (AHDSR._finished e = true -> AHDSR._finished e' = true)
  /\ (AHDSR._finished e' = true ->
      AHDSR._finished e = true \/ AHDSR._phase e' = AHDSR.ahdsr_Release).
Proof.
  revert e e' vs. induction n as [|n IH]; intros e e' vs.
  - cbn. intro H. injection H as <- _. auto.
  - rewrite run_S.
    destruct (AHDSR.get_next_value s e) as [[e1 v]|] eqn:E1; cbn [bind fst snd];
      [|discriminate].
    destruct (AHDSR.run s n e1) as [[e2 vs2]|] eqn:E2; cbn [bind fst snd];
      [|discriminate].
    intro H. injection H as <- _.
    destruct (IH _ _ _ E2) as [Hmono Hset].
    pose proof (get_next_value_finished _ _ _ _ E1) as [Hmono1 Hset1].
    split; [auto|].
    intro Hf. destruct (Hset Hf) as [Hf1|Hr]; [|auto].
    destruct (Hset1 Hf1) as [Hf0|[Hr1 _]]; [auto|].
    right.
    pose proof (run_phase_order s n e1 e2 vs2 E2) as [Hle _].
    rewrite Hr1 in Hle. destruct (AHDSR._phase e2); cbn in Hle; try lia.
    reflexivity.
Qed.

Lemma run_finishes_only_in_release_witness :
  AHDSR.run EnvDemo.settings 2 EnvDemo.cut
    = Ok (AHDSR.set_finished (fst (AHDSR.emit EnvDemo.cut 0%R)),
          [0%R; 0%R])
  /\ (AHDSR._finished
        (AHDSR.set_finished (fst (AHDSR.emit EnvDemo.cut 0%R))) = true ->
      AHDSR._finished EnvDemo.cut = true
      \/ AHDSR._phase
           (AHDSR.set_finished (fst (AHDSR.emit EnvDemo.cut 0%R)))
         = AHDSR.ahdsr_Release).
Proof.
  split; [reflexivity|].
  apply (run_finishes_only_in_release EnvDemo.settings 2 EnvDemo.cut _
           [0%R; 0%R]).
  reflexivity.
Defined.

(** X4.  An envelope that was never started stays in Off: every call of
    [get_next_value] returns zero, changes nothing, and in particular
    never sets [finished]. *)
Theorem never_started_stays_off s e :
  AHDSR._phase e = AHDSR.ahdsr_Off ->
  forall n, AHDSR.run s n e = Ok (e, repeat 0%R n).
Proof.
  intros Hp. induction n as [|n IH]; [reflexivity|].
  rewrite run_S. unfold AHDSR.get_next_value at 1. rewrite Hp.
  cbn [bind fst snd]. rewrite IH. reflexivity.
Qed.

Lemma never_started_stays_off_witness :
  AHDSR._phase EnvDemo.envelope = AHDSR.ahdsr_Off
  /\ AHDSR.run EnvDemo.settings 3 EnvDemo.envelope
     = Ok (EnvDemo.envelope, [0%R; 0%R; 0%R])
  /\ AHDSR._finished EnvDemo.envelope = false.
Proof.
  split; [reflexivity|]. split; [|reflexivity].
  apply (never_started_stays_off EnvDemo.settings EnvDemo.envelope eq_refl 3).
Defined.

(** ** Phase durations *)

Section Durations.
Import AHDSR.
Local Open Scope Z_scope.

Lemma Rpower_2_ge_1 (x : R) : (0 <= x)%R -> (1 <= Rpower 2 x)%R.
Proof.
  intro Hx. rewrite <- (Rpower_O 2) by rlra.
  apply Rle_Rpower; rlra.
Qed.

Lemma seconds_base_pos (time : Z) :
  0 <= time ->
  (0 < Rpower 2 (IZR time / 18) / (545 / 100) - 183 / 1000)%R.
Proof.
  intro Ht.
  assert (H0 : (0 <= IZR time / 18)%R).
  { apply IZR_le in Ht. unfold Rdiv.
    apply Rmult_le_pos; [exact Ht|rlra]. }
  pose proof (Rpower_2_ge_1 _ H0) as H1.
  assert (H2 : (100 / 545 <= Rpower 2 (IZR time / 18) / (545 / 100))%R).
  { unfold Rdiv at 2. replace (/ (545 / 100))%R with (100 / 545)%R by
      (field; rlra).
    Lra.nra. }
  rlra.
Qed.

Lemma convert_time_nonneg time key :
  0 <= time -> key <= 128 -> (0 <= _convert_time_to_sec time key)%R.
Proof.
  intros Ht Hk. pose proof (seconds_base_pos time Ht) as Hb.
  unfold _convert_time_to_sec. destruct (key <? 0) eqn:E; [rlra|].
  apply Z.ltb_ge in E.
  assert (Hf : (0 <= 1 - IZR key / 128)%R).
  { apply IZR_le in Hk. rlra. }
  apply Rmult_le_pos; rlra.
Qed.

Lemma round_nonneg (x : R) : (0 <= x)%R -> 0 <= round x.
Proof.
  intro Hx. unfold round. destruct (Rle_dec 0 x); [|contradiction].
  destruct (base_Int_part (x + / 2)) as [H1 H2].
  apply le_IZR. 
  assert (H : (-1 < IZR (Int_part (x + / 2)))%R) by rlra.
  apply lt_IZR in H. apply IZR_le. lia.
Qed.

Lemma duration_total_bounds s p partId d :
  0 <= duration_total s p partId d <= 127.
Proof.
  unfold duration_total.
  repeat match goal with
  | |- context [if ?b then _ else _] => destruct b eqn:?
  end;
  repeat match goal with
  | H : (_ <? _) = true |- _ => apply Z.ltb_lt in H
  | H : (_ <? _) = false |- _ => apply Z.ltb_ge in H
  | H : (_ >? _) = true |- _ => apply Z.gtb_lt in H
  | H : (_ >? _) = false |- _ => rewrite Z.gtb_ltb in H; apply Z.ltb_ge in H
  end; lia.
Qed.

End Durations.

(** X5.  The duration of a phase is always within 0..127, whatever the
    table entry and the settings are; Hold and Sustain use the clamped
    table entry alone, without any of the three envelope offsets. *)
Theorem duration_total_clamped s p partId d :
  (0 <= AHDSR.duration_total s p partId d <= 127)%Z
  /\ (p = AHDSR.ahdsr_Hold \/ p = AHDSR.ahdsr_Sustain ->
      AHDSR.duration_total s p partId d = Z.min 127 (Z.max 0 d)).
Proof.
  split; [apply duration_total_bounds|].
  intros [-> | ->]; unfold AHDSR.duration_total;
    cbv [AHDSR.phase_eqb AHDSR.phase_index Z.eqb Pos.eqb];
    destruct (Z.ltb_spec d 0%Z);
    match goal with
    | |- context [(?x >? 127)%Z] => destruct (Z.gtb_spec x 127%Z)
    end; lia.
Qed.

(** X6.  Entering any phase gives it a sample length that is not
    negative, provided the key is at most 128 and the sample rate is
    not negative: the duration in seconds is positive for every clamped
    duration because 1 / 5.45 exceeds 0.183. *)
Theorem phase_length_not_negative s p e e1 :
  AHDSR._init_new_phase s p e = Ok e1 ->
  p <> AHDSR.ahdsr_Off ->
  (AHDSR._key e <= 128)%Z ->
  (0 <= AHDSR._sampleRate e)%Z ->
  (0 <= AHDSR._phaseSampleLen e1)%Z.
Proof.
  intros Hi Hp Hk Hr. unfold AHDSR._init_new_phase in Hi.
  destruct (AHDSR.phase_eqb p AHDSR.ahdsr_Off) eqn:E.
  { destruct p; try discriminate. contradiction. }
  destruct (AHDSR.at5 (AHDSR._phaseDuration e) (AHDSR.phase_index p))
    as [d|]; cbn [bind] in Hi; [|discriminate].
  injection Hi as <-. cbn [AHDSR._phaseSampleLen].
  apply round_nonneg. apply Rmult_le_pos.
  - apply convert_time_nonneg; [|exact Hk].
    apply duration_total_bounds.
  - apply IZR_le in Hr. exact Hr.
Qed.

Lemma phase_length_not_negative_witness :
  AHDSR._init_new_phase EnvDemo.settings AHDSR.ahdsr_Attack EnvDemo.envelope
    = Ok EnvDemo.started
  /\ (0 <= AHDSR._phaseSampleLen EnvDemo.started)%Z.
Proof.
  split; [reflexivity|].
  apply (phase_length_not_negative EnvDemo.settings AHDSR.ahdsr_Attack
           EnvDemo.envelope EnvDemo.started).
  - reflexivity.
  - discriminate.
  - simpl. lia.
  - simpl. lia.
Defined.

(** X7.  [_convert_time_to_sec] never decreases when the duration
    grows within the range 0..255 of its [uint8_t] parameter, for every
    key up to 128 and for the unscaled case key < 0. *)
Theorem convert_time_monotone t1 t2 key :
  (0 <= t1)%Z -> (t1 <= t2)%Z -> (t2 <= 255)%Z -> (key <= 128)%Z ->
  (AHDSR._convert_time_to_sec t1 key
     <= AHDSR._convert_time_to_sec t2 key)%R.
Proof.
  intros _ Ht _ Hk.
  assert (Hp : (Rpower 2 (IZR t1 / 18) <= Rpower 2 (IZR t2 / 18))%R).
  { apply Rle_Rpower; [rlra|]. apply IZR_le in Ht. rlra. }
  assert (Hb : (Rpower 2 (IZR t1 / 18) / (545 / 100) - 183 / 1000
                <= Rpower 2 (IZR t2 / 18) / (545 / 100) - 183 / 1000)%R).
  { unfold Rdiv at 1 3.
    replace (/ (545 / 100))%R with (100 / 545)%R by (field; rlra).
    Lra.nra. }
  unfold AHDSR._convert_time_to_sec. destruct (key <? 0)%Z; [exact Hb|].
  assert (Hf : (0 <= 1 - IZR key / 128)%R).
  { apply IZR_le in Hk. rlra. }
  apply Rmult_le_compat_r; assumption.
Qed.

Lemma convert_time_monotone_witness :
  (0 <= 0)%Z /\ (0 <= 18)%Z /\ (18 <= 255)%Z /\ (60 <= 128)%Z
  /\ (AHDSR._convert_time_to_sec 0 60
        <= AHDSR._convert_time_to_sec 18 60)%R.
Proof.
  split; [lia|]. split; [lia|]. split; [lia|]. split; [lia|].
  apply (convert_time_monotone 0 18 60); lia.
Defined.

(** ** The value within a phase *)

Section PhaseValues.
Import AHDSR.
Local Open Scope Z_scope.

Lemma running_phase_samples s e :
  _phase e <> ahdsr_Off -> phase_over e = false ->
  get_next_value s e = sample_value e.
Proof.
  intros Hp Ho. unfold get_next_value. rewrite Ho.
  destruct (_phase e); try reflexivity. contradiction.
Qed.

Lemma target_defined e :
  _phase e <> ahdsr_Off ->
  exists target, at5 (_phaseValue e) (phase_index (_phase e)) = Ok target.
Proof.
  intro Hp. destruct (_phase e); cbn; eauto. contradiction.
Qed.

Lemma shape_at_start (sh : bool) init target len :
  0 < len -> (if sh then concave else linear) init target 0 len = init.
Proof.
  intro Hl. apply IZR_lt in Hl.
  destruct sh; unfold concave, linear.
  - replace (10 * 0 / IZR len + 1)%R with 1%R by (field; rlra).
    rewrite ln_1. unfold Rdiv. ring.
  - unfold Rdiv. ring.
Qed.

(** A call that finds a phase other than Release spent either holds a
    non-zero sustain level or samples the phase it enters. *)
Lemma phase_entered s e e1 :
  phase_over e = true ->
  _phase e <> ahdsr_Off -> _phase e <> ahdsr_Release ->
  _init_new_phase s (next_phase (_phase e)) e = Ok e1 ->
  get_next_value s e = sample_value e1
  \/ get_next_value s e = Ok (e, _currentValue e).
Proof.
  intros Ho Hoff Hrel Hi. unfold get_next_value. rewrite Ho.
  destruct (_phase e); cbn [next_phase] in Hi; try contradiction;
    try (rewrite Hi; left; reflexivity).
  cbn [at5 phase_index bind].
  destruct (Req_dec_T (a3 (_phaseValue e)) 0);
    [rewrite Hi; left; reflexivity|right; reflexivity].
Qed.

(** The demo envelope past its Hold phase enters an 18-sample Decay. *)
Lemma hold_spent_step :
  exists e' v,
    get_next_value EnvDemo.settings EnvDemo.hold_spent = Ok (e', v)
    /\ _phase e' = ahdsr_Decay
    /\ _phaseSampleLen e' = 18.
Proof.
  destruct (init_new_phase_fields EnvDemo.settings ahdsr_Decay
              EnvDemo.hold_spent) as (e1 & Hi & Hp & _); [discriminate|].
  assert (Hl : _phaseSampleLen e1 = 18).
  { unfold _init_new_phase in Hi. cbn in Hi. injection Hi as <-.
    exact eighteen_samples. }
  assert (Hsh : shape_read e1 = Ok false).
  { rewrite shape_read_by_phase, Hp.
    unfold _init_new_phase in Hi. cbn in Hi. injection Hi as <-.
    reflexivity. }
  destruct (sample_value_shaped e1 false ltac:(lia) Hsh)
    as (target & _ & Hv).
  assert (Hs : get_next_value EnvDemo.settings EnvDemo.hold_spent
               = sample_value e1).
  { unfold get_next_value.
    change (_phase EnvDemo.hold_spent) with ahdsr_Hold.
    change (phase_over EnvDemo.hold_spent) with true.
    cbv iota. rewrite Hi. reflexivity. }
  eexists. eexists. rewrite Hs, Hv. split; [reflexivity|].
  split; [exact Hp|exact Hl].
Qed.

End PhaseValues.

(** X8.  A change of phase inside [get_next_value] does not make the
    output jump: when a call finds the current phase spent, enters the
    next one, and that phase has a non-zero length, the value it returns
    is the value the envelope had before the call, whichever shape flag
    is read. *)
Theorem phase_change_is_continuous s e e' v :
  AHDSR.get_next_value s e = Ok (e', v) ->
  AHDSR._phase e' <> AHDSR._phase e ->
  (0 < AHDSR._phaseSampleLen e')%Z ->
  v = AHDSR._currentValue e.
Proof.
  intros H Hchange Hlen.
  pose proof (get_next_value_cases s e e' v H) as Hc.
  destruct Hc as [[-> _]|[(-> & _)|(e1 & He & Hoff & [[-> _]|(Ho & Hr & Hi)])]].
  - contradiction.
  - exfalso. apply Hchange. reflexivity.
  - injection He as ->. exfalso. apply Hchange. reflexivity.
  - destruct (phase_entered s e e1 Ho Hoff Hr Hi) as [Hs|Hs].
    2:{ rewrite Hs in H. injection H as <- _. contradiction. }
    rewrite Hs in H.
    destruct (init_new_phase_fields s (AHDSR.next_phase (AHDSR._phase e)) e)
      as (e1' & H1 & Hp1 & Hi1 & _ & _ & Hinit & _).
    { destruct (AHDSR._phase e); cbn; congruence. }
    rewrite Hi in H1. injection H1 as <-.
    injection He as He.
    assert (Hlen1 : (0 < AHDSR._phaseSampleLen e1)%Z).
    { rewrite He in Hlen. exact Hlen. }
    assert (Hsh : exists sh, AHDSR.shape_read e1 = Ok sh).
    { rewrite shape_read_by_phase, Hp1.
      destruct (AHDSR._phase e); cbn; eauto; contradiction. }
    destruct Hsh as [sh Hsh].
    destruct (sample_value_shaped e1 sh Hlen1 Hsh) as (target & _ & Hv).
    rewrite Hv in H. injection H as _ <-.
    rewrite Hi1, Hinit. apply shape_at_start. exact Hlen1.
Qed.

Lemma phase_change_is_continuous_witness :
  exists e' v,
    AHDSR.get_next_value EnvDemo.settings EnvDemo.hold_spent = Ok (e', v)
    /\ AHDSR._phase e' = AHDSR.ahdsr_Decay
    /\ v = AHDSR._currentValue EnvDemo.hold_spent.
Proof.
  destruct hold_spent_step as (e' & v & Hstep & Hp & Hl).
  exists e', v. split; [exact Hstep|]. split; [exact Hp|].
  apply (phase_change_is_continuous EnvDemo.settings EnvDemo.hold_spent e' v).
  - exact Hstep.
  - rewrite Hp. discriminate.
  - rewrite Hl. lia.
Defined.

(** X9.  A phase entered with a sample length of zero returns its
    target on the first call, in Attack as well (no shape flag is read),
    and that call leaves the phase spent, so the next call moves on. *)
Theorem zero_length_phase s e :
  AHDSR._phase e <> AHDSR.ahdsr_Off ->
  AHDSR._phaseSampleIndex e = 0%Z ->
  AHDSR._phaseSampleLen e = 0%Z ->
  exists target,
    AHDSR.at5 (AHDSR._phaseValue e) (AHDSR.phase_index (AHDSR._phase e))
      = Ok target
    /\ AHDSR.get_next_value s e = Ok (AHDSR.emit e target)
    /\ AHDSR.phase_over (fst (AHDSR.emit e target)) = true.
Proof.
  intros Hoff Hi Hl.
  destruct (target_defined e Hoff) as [target Ht].
  exists target. split; [exact Ht|].
  assert (Ho : AHDSR.phase_over e = false).
  { unfold AHDSR.phase_over. rewrite Hi, Hl. reflexivity. }
  split.
  - rewrite (running_phase_samples s e Hoff Ho).
    unfold AHDSR.sample_value. rewrite Hl, Ht. reflexivity.
  - unfold AHDSR.phase_over. cbn. rewrite Hi, Hl. reflexivity.
Qed.

Lemma zero_length_phase_witness :
  exists target,
    AHDSR.at5 (AHDSR._phaseValue EnvDemo.cut)
      (AHDSR.phase_index (AHDSR._phase EnvDemo.cut)) = Ok target
    /\ AHDSR.get_next_value EnvDemo.settings EnvDemo.cut
       = Ok (AHDSR.emit EnvDemo.cut target)
    /\ AHDSR.phase_over (fst (AHDSR.emit EnvDemo.cut target)) = true.
Proof.
  apply (zero_length_phase EnvDemo.settings EnvDemo.cut).
  - discriminate.
  - reflexivity.
  - reflexivity.
Defined.

(** * Further properties of the partial *)

Section BreakTable.
Import Partial.
Context {C : Collaborators}.
Local Open Scope Z_scope.

Lemma break_walk_from_first rp k n :
  forall j0 j,
  j0 <= j < j0 + Z.of_nat n ->
  (forall i, j0 <= i < j -> break_matches rp k i = false) ->
  break_matches rp k j = true ->
  break_walk_from rp k n j0 =
  if samples rp j =? 65535 then Invalid else Selected (samples rp j).
Proof.
  induction n as [|n IH]; intros j0 j Hj Hbefore Hm; [lia|].
  simpl break_walk_from.
  destruct (Z.eq_dec j0 j) as [->|Hne].
  - rewrite Hm. reflexivity.
  - rewrite (Hbefore j0) by lia.
    apply IH; [lia| |exact Hm].
    intros i Hi. apply Hbefore. lia.
Qed.

End BreakTable.

(** X10.  The break-table walk is decided by the first matching entry
    alone: if entry j matches and no entry before it does, the walk
    selects samples[j], or bails out when samples[j] is 0xffff, whatever
    the entries after j hold. *)
Theorem break_walk_first_match rp k j :
  (0 <= j < 16)%Z ->
  (forall i, (0 <= i < j)%Z ->
     (Partial.breaks rp i < k /\ Partial.breaks rp i <> 127)%Z) ->
  (Partial.breaks rp j >= k \/ Partial.breaks rp j = 127)%Z ->
  Partial.break_walk rp k =
  if (Partial.samples rp j =? 65535)%Z then Partial.Invalid
  else Partial.Selected (Partial.samples rp j).
Proof.
  intros Hj Hbefore Hm. unfold Partial.break_walk.
  apply break_walk_from_first.
  - simpl. lia.
  - intros i Hi. apply break_matches_false. apply Hbefore. lia.
  - apply break_matches_true. exact Hm.
Qed.

Lemma break_walk_first_match_witness :
  Partial.break_walk (Partial.partial Demo.rom_keys 0) 60
  = Partial.Selected 1.
Proof.
  apply (break_walk_first_match (Partial.partial Demo.rom_keys 0) 60 1).
  - lia.
  - intros i Hi. assert (i = 0%Z) as -> by lia. simpl. lia.
  - left. simpl. lia.
Defined.

Section Built.
Import Partial.
Context {C : Collaborators}.
Local Open Scope Z_scope.

Lemma while_fault_kind fuel cond pcm step :
  forall c f, while_consume fuel cond pcm step c = Fault f ->
  f = OutOfRange \/ f = OutOfFuel.
Proof.
  induction fuel as [|fuel IH]; intros c f; simpl.
  - destruct (cond c); [|discriminate]. intro H. injection H as <-. auto.
  - destruct (cond c); [|discriminate].
    destruct (consume pcm step c) as [c1|f1] eqn:E; cbn [bind].
    + apply IH.
    + intro H. injection H as <-. left.
      eapply consume_fault_kind; eauto.
Qed.



End Built.

(** X11.  Construction is all or nothing: a partial the constructor
    returns has either all five pointers set (the three modulators, the
    PCM data and the sample record) or none of them, and in both cases
    its cursor is at the start, moving forward. *)
Theorem construction_all_or_nothing {C : Partial.Collaborators}
    key partialId instrumentIndex rom pcm LFO s partId j p :
  Partial.new key partialId instrumentIndex rom pcm LFO s partId j = Ok p ->
  (Partial.built p \/ Partial.bare p)
  /\ Partial.cursor p = Partial.cursor0
  /\ Partial._key p = key.
Proof.
  rewrite new_after_walk.
  destruct (Partial.break_walk _ _); intro H; try discriminate;
    injection H as <-.
  - split; [left|split; reflexivity].
    unfold Partial.built. cbn. repeat split; discriminate.
  - split; [right|split; reflexivity].
    unfold Partial.bare. cbn. repeat split.
Qed.

Lemma construction_all_or_nothing_witness :
  Partial.new (C := Demo.collab) 60 0 0 Demo.rom_ok Demo.pcm_rom (tt, tt)
    Demo.settings 0 Demo.junk0 = Ok Demo.voice
  /\ (Partial.built Demo.voice \/ Partial.bare Demo.voice)
  /\ Partial.cursor Demo.voice = Partial.cursor0
  /\ Partial._key Demo.voice = 60%Z.
Proof.
  split; [reflexivity|].
  apply (construction_all_or_nothing (C := Demo.collab) 60 0 0 Demo.rom_ok
           Demo.pcm_rom (tt, tt) Demo.settings 0 Demo.junk0 Demo.voice).
  reflexivity.
Defined.



(** X13.  [stop] changes nothing on a melodic partial whose
    construction bailed out (each pointer is tested before use), and
    nothing on a fully constructed drum whose drum-set flag RxNoteOff
    is 0. *)
Theorem stop_ignored {C : Partial.Collaborators} p :
  (Partial._isDrum p = false /\ Partial.bare p)
  \/ (Partial.built p /\ Partial._isDrum p = true
      /\ Partial.RxNoteOff (Partial._settings p) (Partial._drumMap p)
           (Partial._key p) = 0%Z) ->
  Partial.stop p = p.
Proof.
  intros [(Hd & H1 & H2 & H3 & _)|(_ & Hd & Hr)]; unfold Partial.stop.
  - rewrite Hd. cbn [andb negb]. rewrite H1, H2, H3. cbn [option_map].
    destruct p; cbn in *. subst. reflexivity.
  - rewrite Hd, Hr. reflexivity.
Qed.

Lemma stop_ignored_witness :
  Partial.stop
    (Partial.init_members (C := Demo.collab) 60 Demo.inst_partial
       Demo.settings 0 false Demo.junk0)
  = Partial.init_members (C := Demo.collab) 60 Demo.inst_partial
      Demo.settings 0 false Demo.junk0.
Proof.
  apply (stop_ignored (C := Demo.collab)).
  left. split; [reflexivity|]. unfold Partial.bare. repeat split.
Defined.

(** ** Volume and pan *)

Section Volume.
Import Partial.
Context {C : Collaborators}.
Local Open Scope Q_scope.

Lemma Qfloor_unique (x : Q) (n : Z) :
  inject_Z n <= x -> x < inject_Z n + 1 -> Qfloor x = n.
Proof.
  intros Hlo Hhi. destruct (floor_spec x) as [Hf1 Hf2].
  apply Z.le_antisymm; apply Z_Q_le; qlra.
Qed.

(** The conversion to [uint8_t] drops the fraction of a value that is
    in range. *)
Lemma to_uint8_floor (x : Q) (n : Z) :
  (0 <= n <= 255)%Z ->
  inject_Z n <= x -> x < inject_Z n + 1 -> to_uint8 x = n.
Proof.
  intros Hn Hlo Hhi. unfold to_uint8.
  assert (H0 : 0 <= x).
  { assert (Hz : inject_Z 0 <= inject_Z n) by (rewrite <- Zle_Qle; lia).
    change (inject_Z 0) with 0 in Hz. qlra. }
  assert (Hnum : (0 <= Qnum x)%Z).
  { unfold Qle in H0. simpl in H0. lia. }
  rewrite Z.quot_div_nonneg by lia.
  pose proof (Qfloor_unique x n Hlo Hhi) as Hf.
  unfold Qfloor in Hf. destruct x as [a d]. simpl in *. rewrite Hf.
  apply Z.mod_small. lia.
Qed.

End Volume.

(** X14.  The sample volume ignores the fine volume of the sample
    record as long as it is 1024..2023, and a fine volume of 24..1023
    lowers it by one whole step: [_convert_volume] takes a [uint8_t],
    so the fraction (fineVolume - 1024) / 1000 is cut off before the
    volume curve is applied. *)
Theorem fine_volume_is_truncated {C : Partial.Collaborators} cs :
  (0 <= Partial.volume cs <= 255)%Z ->
  ((1024 <= Partial.fineVolume cs < 2024)%Z ->
   Partial._convert_volume
     (inject_Z (Partial.volume cs)
      + inject_Z (Partial.fineVolume cs - 1024) / 1000)%Q
   = Partial._convert_volume (inject_Z (Partial.volume cs)))
  /\
  ((24 <= Partial.fineVolume cs < 1024)%Z -> (1 <= Partial.volume cs)%Z ->
   Partial._convert_volume
     (inject_Z (Partial.volume cs)
      + inject_Z (Partial.fineVolume cs - 1024) / 1000)%Q
   = Partial._convert_volume (inject_Z (Partial.volume cs - 1))).
Proof.
  intros Hv.
  assert (Hself : forall n, (0 <= n <= 255)%Z ->
                  Partial.to_uint8 (inject_Z n) = n).
  { intros n Hn. apply to_uint8_floor; [exact Hn| |]; qlra. }
  split.
  - intros [Hf1 Hf2]. unfold Partial._convert_volume.
    rewrite (Hself _ Hv).
    rewrite (to_uint8_floor _ (Partial.volume cs) Hv); [reflexivity| |].
    + rewrite Zle_Qle in Hf1. zq.
      unfold Qdiv. change (/ 1000)%Q with (1 # 1000)%Q.
      change (inject_Z 1024) with 1024%Q in *.
      try change (inject_Z 2024) with 2024%Q in *.
      try change (inject_Z 24) with 24%Q in *. qlra.
    + rewrite Zlt_Qlt in Hf2. zq.
      unfold Qdiv. change (/ 1000)%Q with (1 # 1000)%Q.
      change (inject_Z 1024) with 1024%Q in *.
      try change (inject_Z 2024) with 2024%Q in *.
      try change (inject_Z 24) with 24%Q in *. qlra.
  - intros [Hf1 Hf2] Hv1. unfold Partial._convert_volume.
    rewrite (Hself (Partial.volume cs - 1)%Z) by lia.
    rewrite (to_uint8_floor _ (Partial.volume cs - 1)%Z);
      [reflexivity|lia| |].
    + rewrite Zle_Qle in Hf1. zq.
      unfold Qdiv. change (/ 1000)%Q with (1 # 1000)%Q.
      change (inject_Z 1024) with 1024%Q in *.
      try change (inject_Z 2024) with 2024%Q in *.
      try change (inject_Z 24) with 24%Q in *. qlra.
    + rewrite Zlt_Qlt in Hf2. zq.
      unfold Qdiv. change (/ 1000)%Q with (1 # 1000)%Q.
      change (inject_Z 1024) with 1024%Q in *.
      try change (inject_Z 2024) with 2024%Q in *.
      try change (inject_Z 24) with 24%Q in *. qlra.
Qed.

Lemma fine_volume_is_truncated_witness :
  let cs := Partial.Build_Sample 10 4 2 60 1024 100 1500 in
  Partial._convert_volume (C := Demo.collab)
    (inject_Z (Partial.volume cs)
     + inject_Z (Partial.fineVolume cs - 1024) / 1000)%Q
  = Partial._convert_volume (C := Demo.collab)
      (inject_Z (Partial.volume cs)).
Proof.
  intro cs.
  refine (proj1 (fine_volume_is_truncated (C := Demo.collab) cs _) _).
  - unfold cs. clear cs. simpl. lia.
  - unfold cs. clear cs. simpl. lia.
Defined.

Section Pan.
Import Partial.
Context {C : Collaborators}.
Local Open Scope Q_scope.


End Pan.



(** * Further properties of the cursor *)

Section CursorModes.
Import Partial.
Context {C : Collaborators}.
Local Open Scope Z_scope.

Ltac step_loop k Ei Ed :=
  match goal with
  | |- context [while_consume ?f ?cond ?pcm ?st ?x] =>
      let E := fresh "E" in
      destruct (while_consume f cond pcm st x) as [k|] eqn:E; cbn [bind];
      [apply while_frame in E; destruct E as [Ei Ed];
       cbn [_index _direction set_index set_direction set_lastPos] in Ei, Ed
      |discriminate]
  end.

(** What a call that reports the end of the sample looks like. *)
Lemma advance_terminated fuel cs pcm pitchAdj c c' b :
  advance fuel cs pcm pitchAdj c = Ok (c', b) ->
  (b = true <->
   (_direction c = 1 /\ loopMode cs = 2
    /\ (inject_Z (sampleLen cs - 1) < _index c + pitchAdj)%Q))
  /\ (b = true ->
      _index c' = (_index c + pitchAdj)%Q /\ _direction c' = 1).
Proof.
  unfold advance.
  destruct (Z.eqb_spec (_direction c) 1) as [Hd|Hd].
  - unfold forward. step_loop k1 Ei Ed.
    destruct (Qltb _ _) eqn:Eev.
    + apply Qltb_true in Eev. rewrite Ei in Eev.
      destruct (Z.eqb_spec (loopMode cs) 0) as [M0|M0].
      { step_loop k2 Ei2 Ed2. intro H. injection H as <- <-.
        split; [split; [discriminate|intros (_ & M2 & _); lia]
               |discriminate]. }
      destruct (Z.eqb_spec (loopMode cs) 1) as [M1|M1].
      { step_loop k2 Ei2 Ed2. intro H. injection H as <- <-.
        split; [split; [discriminate|intros (_ & M2 & _); lia]
               |discriminate]. }
      destruct (Z.eqb_spec (loopMode cs) 2) as [M2|M2];
        intro H; injection H as <- <-.
      * split; [split; auto|]. intros _. split; [exact Ei|congruence].
      * split; [split; [discriminate|intros (_ & M & _); lia]
               |discriminate].
    + apply Qltb_false in Eev. rewrite Ei in Eev.
      intro H. injection H as <- <-.
      split; [split; [discriminate|]|discriminate].
      intros (_ & _ & Hlt). exfalso. revert Hlt. apply Qle_not_lt. exact Eev.
  - unfold backward. step_loop k1 Ei Ed.
    destruct (Qltb _ _).
    + step_loop k2 Ei2 Ed2. step_loop k3 Ei3 Ed3.
      intro H. injection H as <- <-.
      split; [split; [discriminate|intros (Hd1 & _); contradiction]
             |discriminate].
    + intro H. injection H as <- <-.
      split; [split; [discriminate|intros (Hd1 & _); contradiction]
             |discriminate].
Qed.

(** Outside ping-pong samples a forward cursor stays forward. *)
Lemma advance_stays_forward fuel cs pcm pitchAdj c c' b :
  loopMode cs <> 1 -> _direction c = 1 ->
  advance fuel cs pcm pitchAdj c = Ok (c', b) -> _direction c' = 1.
Proof.
  intros Hm Hd. unfold advance. rewrite Hd. cbn [Z.eqb Pos.eqb].
  unfold forward. step_loop k1 Ei Ed.
  destruct (Qltb _ _).
  - destruct (Z.eqb_spec (loopMode cs) 0).
    { step_loop k2 Ei2 Ed2. intro H. injection H as <- _. congruence. }
    destruct (Z.eqb_spec (loopMode cs) 1); [contradiction|].
    destruct (loopMode cs =? 2); intro H; injection H as <- _; congruence.
  - intro H. injection H as <- _. congruence.
Qed.

Lemma reachable_stays_forward cs pcm c :
  loopMode cs <> 1 -> cursor_reachable cs pcm c -> _direction c = 1.
Proof.
  intro Hm. induction 1 as [|c fuel q c' b _ IH _ Hadv].
  - reflexivity.
  - eapply advance_stays_forward; eauto.
Qed.

End CursorModes.

(** X16.  A sample whose loop mode is not ping-pong (mode 1) is never
    read backward: every reachable cursor has direction 1. *)
Theorem only_ping_pong_reverses {C : Partial.Collaborators} cs pcm c :
  Partial.loopMode cs <> 1%Z ->
  Partial.cursor_reachable cs pcm c ->
  Partial._direction c = 1%Z.
Proof. apply reachable_stays_forward. Qed.

Lemma only_ping_pong_reverses_witness :
  exists c,
    Partial.advances (C := Demo.collab) 16 (Demo.sample10 0) Demo.pcm10
      [3; 3; 3; 3]%Q Partial.cursor0 = Ok c
    /\ Partial._direction c = 1%Z.
Proof.
  eexists. split; [vm_compute; reflexivity|].
  apply (only_ping_pong_reverses (C := Demo.collab) (Demo.sample10 0)
           Demo.pcm10).
  - discriminate.
  - eapply (advances_reachable (C := Demo.collab) 16 _ _ [3; 3; 3; 3]%Q);
      [apply Partial.reach_new|repeat constructor|vm_compute; reflexivity].
Defined.

(** X17.  A call of the cursor reports "terminated" exactly when the
    cursor moves forward over a forward-stop sample (mode 2) and the
    new position is beyond sampleLen - 1; looping samples never end the
    voice. *)
Theorem terminated_iff_forward_stop_past_end
    {C : Partial.Collaborators} fuel cs pcm pitchAdj c c' b :
  Partial.advance fuel cs pcm pitchAdj c = Ok (c', b) ->
  (b = true <->
   (Partial._direction c = 1%Z /\ Partial.loopMode cs = 2%Z
    /\ (inject_Z (Partial.sampleLen cs - 1)
        < Partial._index c + pitchAdj)%Q)).
Proof.
  intro H. apply advance_terminated in H. destruct H as [H _]. exact H.
Qed.

Lemma terminated_iff_forward_stop_past_end_witness :
  let c := @Partial.mkCursor Demo.collab 9%Q 1%Z 8%Q 9%Z tt tt in
  let c' := @Partial.mkCursor Demo.collab 10%Q 1%Z 8%Q 9%Z tt tt in
  Partial.advance (C := Demo.collab) 16 (Demo.sample10 2) Demo.pcm10 1 c
    = Ok (c', true)
  /\ (true = true <->
      (Partial._direction c = 1%Z /\ Partial.loopMode (Demo.sample10 2) = 2%Z
       /\ (inject_Z (Partial.sampleLen (Demo.sample10 2) - 1)
           < Partial._index c + 1)%Q)).
Proof.
  intros c c'. split; [reflexivity|].
  apply (terminated_iff_forward_stop_past_end (C := Demo.collab) 16
           (Demo.sample10 2) Demo.pcm10 1 c c' true).
  reflexivity.
Defined.

(** X18.  Once the cursor of a forward-stop sample has reported
    "terminated", every later call with a pitch that is not negative
    reports it again. *)
Theorem forward_stop_stays_terminated
    {C : Partial.Collaborators} fuel cs pcm pitchAdj c c'
    fuel' pitchAdj' c'' b' :
  Partial.advance fuel cs pcm pitchAdj c = Ok (c', true) ->
  (0 <= pitchAdj')%Q ->
  Partial.advance fuel' cs pcm pitchAdj' c' = Ok (c'', b') ->
  b' = true.
Proof.
  intros H1 Hp H2.
  apply advance_terminated in H1. destruct H1 as [Hiff Hst].
  destruct (proj1 Hiff eq_refl) as (_ & M2 & Hlt).
  destruct (Hst eq_refl) as [Hi Hd].
  apply advance_terminated in H2. destruct H2 as [Hiff2 _].
  apply Hiff2. split; [exact Hd|]. split; [exact M2|].
  rewrite Hi. qlra.
Qed.

Lemma forward_stop_stays_terminated_witness :
  let c := @Partial.mkCursor Demo.collab 9%Q 1%Z 8%Q 9%Z tt tt in
  let c' := @Partial.mkCursor Demo.collab 10%Q 1%Z 8%Q 9%Z tt tt in
  let c'' := @Partial.mkCursor Demo.collab 11%Q 1%Z 8%Q 9%Z tt tt in
  Partial.advance (C := Demo.collab) 16 (Demo.sample10 2) Demo.pcm10 1 c
    = Ok (c', true)
  /\ Partial.advance (C := Demo.collab) 16 (Demo.sample10 2) Demo.pcm10 1 c'
     = Ok (c'', true)
  /\ true = true.
Proof.
  intros c c' c''. split; [reflexivity|]. split; [reflexivity|].
  apply (forward_stop_stays_terminated (C := Demo.collab) 16
           (Demo.sample10 2) Demo.pcm10 1 c c' 16 1 c'' true).
  - reflexivity.
  - discriminate.
  - reflexivity.
Defined.

Section CursorSync.
Import Partial.
Context {C : Collaborators}.
Local Open Scope Z_scope.

Lemma Qle_bool_false (x : Q) : Qle_bool 0 x = false -> (x < 0)%Q.
Proof.
  intro H. apply Qnot_le_lt. intro Hle.
  apply Qle_bool_iff in Hle. congruence.
Qed.

Lemma roundf_mono (x y : Q) : (x <= y)%Q -> roundf x <= roundf y.
Proof.
  intro Hxy. unfold roundf.
  destruct (Qle_bool 0 x) eqn:Ex; destruct (Qle_bool 0 y) eqn:Ey.
  - apply Qfloor_resp_le. qlra.
  - apply Qle_bool_iff in Ex. apply Qle_bool_false in Ey. exfalso. qlra.
  - apply Qle_bool_false in Ex. apply Qle_bool_iff in Ey.
    assert (H1 : Qfloor 0 <= Qfloor (- x + (1 # 2))%Q)
      by (apply Qfloor_resp_le; qlra).
    assert (H2 : Qfloor 0 <= Qfloor (y + (1 # 2))%Q)
      by (apply Qfloor_resp_le; qlra).
    change (Qfloor 0) with 0 in H1, H2. lia.
  - assert (H : Qfloor (- y + (1 # 2))%Q <= Qfloor (- x + (1 # 2))%Q)
      by (apply Qfloor_resp_le; qlra).
    lia.
Qed.

(** A loop that returns leaves its condition false and keeps whatever
    each iteration keeps. *)
Lemma while_post (I : Cursor -> Prop) fuel cond pcm step :
  (forall c c1, I c -> cond c = true -> consume pcm step c = Ok c1 -> I c1) ->
  forall c c', I c ->
  while_consume fuel cond pcm step c = Ok c' ->
  I c' /\ cond c' = false.
Proof.
  intro Hstep. induction fuel as [|fuel IH]; intros c c' Hc; simpl.
  - destruct (cond c) eqn:E; [discriminate|].
    intro H. injection H as <-. auto.
  - destruct (cond c) eqn:E; [|intro H; injection H as <-; auto].
    destruct (consume pcm step c) as [c1|] eqn:E1; cbn [bind];
      [|discriminate].
    apply IH. eapply Hstep; eauto.
Qed.

Lemma consume_up_not_ahead pcm c c1 :
  (roundf (_index c) >? _lastPos c) = true ->
  consume pcm 1 c = Ok c1 -> not_ahead c1.
Proof.
  intros Hc H. apply consume_frame in H. destruct H as (Hi & _ & Hl).
  unfold not_ahead. rewrite Hi, Hl. apply Z.gtb_lt in Hc. lia.
Qed.

Lemma forward_keeps_sync fuel cs pcm pitchAdj c c' :
  loopMode cs = 0 \/ loopMode cs = 2 ->
  synced c -> (0 <= pitchAdj)%Q ->
  forward fuel cs pcm pitchAdj c = Ok (c', false) ->
  synced c'.
Proof.
  intros Hm Hs Hp. unfold forward.
  destruct (while_consume fuel (fw_consume_cond cs) pcm 1 _)
    as [k1|] eqn:E1; cbn [bind]; [|discriminate].
  pose proof (while_frame _ _ _ _ _ _ E1) as [Ei1 _].
  cbn [_index set_index] in Ei1.
  apply (while_post not_ahead) in E1.
  2:{ intros x x1 _ Hc. unfold fw_consume_cond in Hc.
      apply andb_true_iff in Hc. destruct Hc as [Hc _].
      apply consume_up_not_ahead. exact Hc. }
  2:{ unfold not_ahead. cbn [_index _lastPos set_index]. rewrite Hs.
      apply roundf_mono. qlra. }
  destruct E1 as [Hna Hex]. unfold not_ahead in Hna.
  unfold fw_consume_cond in Hex. apply andb_false_iff in Hex.
  destruct (Qltb _ _) eqn:Eev.
  - destruct (Z.eqb_spec (loopMode cs) 0) as [M0|M0].
    + match goal with
      | |- context [while_consume ?f ?cond ?pc ?st ?x] =>
          destruct (while_consume f cond pc st x) as [k2|] eqn:E2;
          cbn [bind]; [|discriminate]
      end.
      apply (while_post not_ahead) in E2.
      * destruct E2 as [Hna2 Hex2]. intro H. injection H as <-.
        unfold ahead_cond in Hex2. unfold not_ahead in Hna2. unfold synced.
        rewrite Z.gtb_ltb in Hex2. apply Z.ltb_ge in Hex2. lia.
      * intros x x1 _ Hc. apply consume_up_not_ahead. exact Hc.
      * unfold not_ahead. cbn [_index _lastPos set_index set_lastPos].
        apply roundf_ge.
        pose proof (Qabs_nonneg (inject_Z (sampleLen cs) - _index k1)).
        qlra.
    + destruct (Z.eqb_spec (loopMode cs) 1); [lia|].
      destruct (Z.eqb_spec (loopMode cs) 2); [discriminate|lia].
  - apply Qltb_false in Eev. intro H. injection H as <-.
    unfold synced.
    assert (Hr : roundf (_index k1) <= sampleLen cs - 1).
    { apply roundf_le. qlra. }
    destruct Hex as [Hex|Hex].
    + rewrite Z.gtb_ltb in Hex. apply Z.ltb_ge in Hex. lia.
    + apply Z.ltb_ge in Hex. lia.
Qed.

Lemma advance_keeps_sync fuel cs pcm pitchAdj c c' :
  loopMode cs = 0 \/ loopMode cs = 2 ->
  _direction c = 1 -> synced c -> (0 <= pitchAdj)%Q ->
  advance fuel cs pcm pitchAdj c = Ok (c', false) ->
  synced c' /\ _direction c' = 1.
Proof.
  intros Hm Hd Hs Hp Hadv. split.
  - unfold advance in Hadv. rewrite Hd in Hadv. cbn [Z.eqb Pos.eqb] in Hadv.
    eapply forward_keeps_sync; eauto.
  - eapply advance_stays_forward; [|exact Hd|exact Hadv]. lia.
Qed.

(** In a forward loop no call reports the end, so every reachable
    cursor is synced and moving forward. *)
Lemma reachable_forward_loop_synced cs pcm c :
  loopMode cs = 0 -> cursor_reachable cs pcm c ->
  synced c /\ _direction c = 1.
Proof.
  intro M0. induction 1 as [|c fuel q c' b _ [IHs IHd] Hq Hadv].
  - split; reflexivity.
  - destruct b.
    + apply advance_terminated in Hadv. destruct Hadv as [Hiff _].
      destruct (proj1 Hiff eq_refl) as (_ & M2 & _). lia.
    + eapply advance_keeps_sync; eauto. qlra.
Qed.

End CursorSync.

(** X19.  Over a forward-loop or forward-stop sample, a call that
    returns without ending the voice leaves [_lastPos] equal to the
    rounded position, as it found it: the reconstruction filters have
    then been fed exactly up to the sample the position points at. *)
Theorem lastPos_follows_position
    {C : Partial.Collaborators} fuel cs pcm pitchAdj c c' :
  (Partial.loopMode cs = 0 \/ Partial.loopMode cs = 2)%Z ->
  Partial._direction c = 1%Z ->
  Partial._lastPos c = Partial.roundf (Partial._index c) ->
  (0 <= pitchAdj)%Q ->
  Partial.advance fuel cs pcm pitchAdj c = Ok (c', false) ->
  Partial._lastPos c' = Partial.roundf (Partial._index c')
  /\ Partial._direction c' = 1%Z.
Proof. apply advance_keeps_sync. Qed.

Lemma lastPos_follows_position_witness :
  let c := @Partial.mkCursor Demo.collab 9%Q 1%Z 8%Q 9%Z tt tt in
  let c' := @Partial.mkCursor Demo.collab (7 # 1)%Q 1%Z 6%Q 7%Z tt tt in
  Partial.advance (C := Demo.collab) 16 (Demo.sample10 0) Demo.pcm10 3 c
    = Ok (c', false)
  /\ Partial._lastPos c' = Partial.roundf (Partial._index c')
  /\ Partial._direction c' = 1%Z.
Proof.
  intros c c'. split; [reflexivity|].
  apply (lastPos_follows_position (C := Demo.collab) 16 (Demo.sample10 0)
           Demo.pcm10 3 c c').
  - left. reflexivity.
  - reflexivity.
  - reflexivity.
  - discriminate.
  - reflexivity.
Defined.


(** ** Reads inside the PCM data *)

Section InRange.
Import Partial.
Context {C : Collaborators}.
Local Open Scope Z_scope.

Lemma consume_in_range pcm step c :
  0 <= _lastPos c < Z.of_nat (length pcm) ->
  exists c1, consume pcm step c = Ok c1.
Proof.
  intros [H0 H1]. unfold consume, pcm_at.
  destruct (Z.ltb_spec (_lastPos c) 0); [lia|].
  destruct (nth_error pcm (Z.to_nat (_lastPos c))) as [x|] eqn:E.
  - cbn [of_option bind]. eauto.
  - apply nth_error_None in E. lia.
Qed.

(** A loop whose every iteration reads inside the data never raises. *)
Lemma while_no_range (I : Cursor -> Prop) cond pcm step :
  (forall c, I c -> cond c = true ->
     exists c1, consume pcm step c = Ok c1 /\ I c1) ->
  forall fuel c, I c ->
  while_consume fuel cond pcm step c <> Fault OutOfRange.
Proof.
  intro Hstep. induction fuel as [|fuel IH]; intros c Hc; simpl.
  - destruct (cond c); discriminate.
  - destruct (cond c) eqn:E; [|discriminate].
    destruct (Hstep c Hc E) as (c1 & H1 & HI). rewrite H1. cbn [bind].
    apply IH. exact HI.
Qed.

Lemma advance_fault_kind fuel cs pcm pitchAdj c f :
  advance fuel cs pcm pitchAdj c = Fault f ->
  f = OutOfRange \/ f = OutOfFuel.
Proof.
  unfold advance, forward, backward.
  repeat match goal with
  | |- context [while_consume ?fu ?cond ?pc ?st ?x] =>
      let E := fresh "E" in
      destruct (while_consume fu cond pc st x) eqn:E; cbn [bind];
      [clear E|apply while_fault_kind in E; intro H; injection H as <-;
               exact E]
  | |- context [if ?x then _ else _] => destruct x
  end; discriminate.
Qed.

(** A call that settles and never raises settles on a return. *)
Lemma settles_on_return cs pcm pitchAdj c :
  (forall fuel, advance fuel cs pcm pitchAdj c <> Fault OutOfRange) ->
  forall (N : nat) r,
  r <> Fault OutOfFuel ->
  (forall fuel, (N <= fuel)%nat -> advance fuel cs pcm pitchAdj c = r) ->
  exists c' b, r = Ok (c', b).
Proof.
  intros Hnr N r Hne Hall.
  destruct r as [[c' b]|f]; [eauto|].
  exfalso. pose proof (Hall N (Nat.le_refl N)) as HN.
  destruct (advance_fault_kind _ _ _ _ _ _ HN) as [-> | ->].
  - exact (Hnr N HN).
  - apply Hne. reflexivity.
Qed.

Lemma advance_settles cs pcm pitchAdj c :
  settles (fun fuel => advance fuel cs pcm pitchAdj c).
Proof.
  unfold advance. destruct (_direction c =? 1).
  - apply forward_settles.
  - apply backward_settles.
Qed.

Lemma returns_when_never_raising cs pcm pitchAdj c :
  (forall fuel, advance fuel cs pcm pitchAdj c <> Fault OutOfRange) ->
  exists (N : nat) c' b,
    forall fuel, (N <= fuel)%nat ->
      advance fuel cs pcm pitchAdj c = Ok (c', b).
Proof.
  intro Hnr. destruct (advance_settles cs pcm pitchAdj c)
    as (N & r & Hne & Hall).
  destruct (settles_on_return cs pcm pitchAdj c Hnr N r Hne Hall)
    as (c' & b & ->).
  exists N, c', b. exact Hall.
Qed.

(** *** Forward-stop samples *)

Lemma consume_up_from_zero pcm c c1 :
  from_zero c -> consume pcm 1 c = Ok c1 -> from_zero c1.
Proof.
  unfold from_zero. intros H0 H. apply consume_frame in H.
  destruct H as (_ & _ & Hl). lia.
Qed.

Lemma fw_consume_reads_in_range cs pcm :
  sampleLen cs - 1 <= Z.of_nat (length pcm) ->
  forall c, from_zero c -> fw_consume_cond cs c = true ->
  exists c1, consume pcm 1 c = Ok c1 /\ from_zero c1.
Proof.
  intros Hlen c H0 Hc. unfold fw_consume_cond in Hc.
  apply andb_true_iff in Hc. destruct Hc as [_ Hc]. apply Z.ltb_lt in Hc.
  destruct (consume_in_range pcm 1 c) as [c1 H1].
  - unfold from_zero in H0. lia.
  - exists c1. split; [exact H1|]. eapply consume_up_from_zero; eauto.
Qed.

Lemma forward_stop_step cs pcm pitchAdj c :
  loopMode cs = 2 ->
  sampleLen cs - 1 <= Z.of_nat (length pcm) ->
  _direction c = 1 -> from_zero c ->
  (forall fuel, advance fuel cs pcm pitchAdj c <> Fault OutOfRange)
  /\ (forall fuel c' b, advance fuel cs pcm pitchAdj c = Ok (c', b) ->
        _direction c' = 1 /\ from_zero c').
Proof.
  intros M2 Hlen Hd H0. split.
  - intro fuel. unfold advance. rewrite Hd. cbn [Z.eqb Pos.eqb].
    unfold forward.
    destruct (while_consume fuel (fw_consume_cond cs) pcm 1 _)
      as [k1|f] eqn:E1; cbn [bind].
    + rewrite M2. cbn [Z.eqb Pos.eqb].
      destruct (Qltb _ _); discriminate.
    + intro H. injection H as ->. revert E1.
      apply (while_no_range from_zero).
      * apply fw_consume_reads_in_range. exact Hlen.
      * exact H0.
  - intros fuel c' b Hadv. split.
    + eapply advance_stays_forward; [|exact Hd|exact Hadv]. lia.
    + revert Hadv. unfold advance. rewrite Hd. cbn [Z.eqb Pos.eqb].
      unfold forward.
      destruct (while_consume fuel (fw_consume_cond cs) pcm 1 _)
        as [k1|f] eqn:E1; cbn [bind]; [|discriminate].
      apply (while_post from_zero) in E1.
      * destruct E1 as [Hk _]. rewrite M2. cbn [Z.eqb Pos.eqb].
        destruct (Qltb _ _); intro H; injection H as <- _; exact Hk.
      * intros x x1 Hx _. apply consume_up_from_zero. exact Hx.
      * exact H0.
Qed.

Lemma reachable_forward_stop cs pcm c :
  loopMode cs = 2 ->
  sampleLen cs - 1 <= Z.of_nat (length pcm) ->
  cursor_reachable cs pcm c ->
  _direction c = 1 /\ from_zero c.
Proof.
  intros M2 Hlen. induction 1 as [|c fuel q c' b _ [IHd IH0] _ Hadv].
  - split; [reflexivity|]. unfold from_zero. cbn. lia.
  - destruct (forward_stop_step cs pcm q c M2 Hlen IHd IH0) as [_ Hk].
    eapply Hk; eauto.
Qed.

End InRange.

(** X20.  Playing a forward-stop sample never raises [out_of_range]:
    as long as the PCM vector holds at least sampleLen - 1 values,
    every call on a reachable cursor returns, whatever the pitch. *)
Theorem forward_stop_reads_in_range
    {C : Partial.Collaborators} cs pcm c pitchAdj :
  Partial.loopMode cs = 2%Z ->
  (Partial.sampleLen cs - 1 <= Z.of_nat (length pcm))%Z ->
  Partial.cursor_reachable cs pcm c ->
  exists (N : nat) c' b,
    forall fuel, (N <= fuel)%nat ->
      Partial.advance fuel cs pcm pitchAdj c = Ok (c', b).
Proof.
  intros M2 Hlen Hr.
  destruct (reachable_forward_stop cs pcm c M2 Hlen Hr) as [Hd H0].
  apply returns_when_never_raising.
  apply (forward_stop_step cs pcm pitchAdj c M2 Hlen Hd H0).
Qed.

Lemma forward_stop_reads_in_range_witness :
  exists (N : nat) c' b,
    forall fuel, (N <= fuel)%nat ->
      Partial.advance (C := Demo.collab) fuel (Demo.sample10 2) Demo.pcm10
        100 Partial.cursor0 = Ok (c', b).
Proof.
  apply (forward_stop_reads_in_range (C := Demo.collab) (Demo.sample10 2)
           Demo.pcm10 Partial.cursor0 100).
  - reflexivity.
  - simpl. lia.
  - apply Partial.reach_new.
Defined.

Section ForwardLoopReads.
Import Partial.
Context {C : Collaborators}.
Local Open Scope Z_scope.

(** What a cursor looping over a forward-loop sample satisfies. *)
Lemma looping_forward_loop cs pcm c :
  loopMode cs = 0 ->
  looping loop_safe cs pcm c ->
  in_window cs c /\ synced c /\ _direction c = 1.
Proof.
  intro M0. induction 1 as [c Hr Hd Hw|c fuel q c' b _ IH Hq Hadv].
  - destruct (reachable_forward_loop_synced cs pcm c M0 Hr) as [Hs _].
    auto.
  - destruct IH as (Hw & Hs & Hd).
    assert (Hb : b = false).
    { destruct b; [|reflexivity].
      apply advance_terminated in Hadv. destruct Hadv as [Hiff _].
      destruct (proj1 Hiff eq_refl) as (_ & M2 & _). lia. }
    subst b.
    assert (Hinv : loop_inv cs c) by (split; [exact Hw|left; exact Hd]).
    destruct (advance_keeps_window fuel cs pcm q c c' false Hinv Hq
                (or_introl M0) Hadv) as [Hw' _].
    destruct Hq as (Hq0 & _).
    destruct (advance_keeps_sync fuel cs pcm q c c' (or_introl M0) Hd Hs
                ltac:(qlra) Hadv) as [Hs' Hd'].
    auto.
Qed.

Lemma consume_up_in_loop_reads cs pcm c c1 :
  in_loop_reads cs c -> consume pcm 1 c = Ok c1 -> in_loop_reads cs c1.
Proof.
  unfold in_loop_reads. intros [H0 H1] H. apply consume_frame in H.
  destruct H as (Hi & _ & Hl). rewrite Hi, Hl. lia.
Qed.

Lemma forward_loop_never_raises cs pcm pitchAdj c :
  loopMode cs = 0 ->
  0 <= sampleLen cs - loopLen cs - 1 ->
  sampleLen cs - 1 <= Z.of_nat (length pcm) ->
  in_window cs c -> synced c -> _direction c = 1 ->
  loop_safe cs pitchAdj ->
  forall fuel, advance fuel cs pcm pitchAdj c <> Fault OutOfRange.
Proof.
  intros M0 Hlo Hlen Hw Hs Hd (Hp0 & Hp1 & _) fuel.
  specialize (Hp1 M0).
  pose proof (loopLen_ge_1 _ _ Hp0 Hp1) as Hll.
  pose proof (window_bounds cs c Hw) as [Hxlo Hxhi].
  destruct Hw as [Hw1 Hw2].
  unfold advance. rewrite Hd. cbn [Z.eqb Pos.eqb]. unfold forward.
  set (lo := sampleLen cs - loopLen cs - 1) in *.
  set (low := fun k : Cursor => lo <= _lastPos k).
  destruct (while_consume fuel (fw_consume_cond cs) pcm 1 _)
    as [k1|f] eqn:E1; cbn [bind].
  - pose proof (while_frame _ _ _ _ _ _ E1) as [Ei1 _].
    cbn [_index set_index] in Ei1.
    destruct (Qltb _ _) eqn:Eev; [|discriminate].
    apply Qltb_true in Eev. rewrite Ei1 in Eev.
    rewrite M0. cbn [Z.eqb].
    match goal with
    | |- context [while_consume ?fu ?cond ?pc ?st ?x] =>
        destruct (while_consume fu cond pc st x) as [k2|f] eqn:E2;
        cbn [bind]; [discriminate|]
    end.
    intro H. injection H as ->. revert E2.
    apply (while_no_range (in_loop_reads cs)).
    + intros x [Hx0 Hx1] Hc. unfold ahead_cond in Hc. apply Z.gtb_lt in Hc.
      destruct (consume_in_range pcm 1 x) as [x1 H1]; [fold lo in Hx0; lia|].
      exists x1. split; [exact H1|].
      eapply consume_up_in_loop_reads; [|exact H1]. split; assumption.
    + unfold in_loop_reads.
      cbn [_index _lastPos set_index set_lastPos]. split; [lia|].
      apply roundf_le. rewrite Ei1.
      destruct (Qabs_cases (inject_Z (sampleLen cs) - (_index c + pitchAdj)))
        as [[Ha Hy]|[Ha Hy]]; unfold lo; zq; qlra.
  - intro H. injection H as ->. revert E1.
    apply (while_no_range low).
    + intros x Hx Hc. unfold fw_consume_cond in Hc.
      apply andb_true_iff in Hc. destruct Hc as [_ Hc]. apply Z.ltb_lt in Hc.
      unfold low in Hx.
      destruct (consume_in_range pcm 1 x) as [x1 H1]; [lia|].
      exists x1. split; [exact H1|]. unfold low.
      apply consume_frame in H1. destruct H1 as (_ & _ & Hl). lia.
    + unfold low. cbn [_lastPos set_index]. rewrite Hs. exact Hw1.
Qed.

End ForwardLoopReads.

(** X21.  A cursor looping over a forward-loop sample never reads
    outside the PCM data: when the loop starts at a valid index
    (sampleLen - loopLen - 1 >= 0) and the PCM vector holds at least
    sampleLen - 1 values, every call with 0 < pitchAdj < loopLen returns,
    and it does not end the voice. *)
Theorem forward_loop_reads_in_range
    {C : Partial.Collaborators} cs pcm c pitchAdj :
  Partial.loopMode cs = 0%Z ->
  (0 <= Partial.sampleLen cs - Partial.loopLen cs - 1)%Z ->
  (Partial.sampleLen cs - 1 <= Z.of_nat (length pcm))%Z ->
  Partial.looping Partial.loop_safe cs pcm c ->
  (0 < pitchAdj /\ pitchAdj < inject_Z (Partial.loopLen cs))%Q ->
  exists (N : nat) c',
    forall fuel, (N <= fuel)%nat ->
      Partial.advance fuel cs pcm pitchAdj c = Ok (c', false).
Proof.
  intros M0 Hlo Hlen Hloop [Hp0 Hp1].
  assert (Hsafe : Partial.loop_safe cs pitchAdj).
  { split; [exact Hp0|]. split; [intros _; exact Hp1|]. intro M1. lia. }
  destruct (looping_forward_loop cs pcm c M0 Hloop) as (Hw & Hs & Hd).
  destruct (returns_when_never_raising cs pcm pitchAdj c
              (forward_loop_never_raises cs pcm pitchAdj c M0 Hlo Hlen
                 Hw Hs Hd Hsafe)) as (N & c' & b & Hall).
  exists N, c'. intros fuel Hf.
  rewrite (Hall fuel Hf). f_equal. f_equal.
  destruct b; [|reflexivity].
  pose proof (Hall N (Nat.le_refl N)) as HN.
  apply advance_terminated in HN. destruct HN as [Hiff _].
  destruct (proj1 Hiff eq_refl) as (_ & M2 & _). lia.
Qed.

Lemma forward_loop_reads_in_range_witness :
  let cs := Demo.sample10 0 in
  let c := @Partial.mkCursor Demo.collab 6%Q 1%Z 5%Q 6%Z tt tt in
  Partial.advances (C := Demo.collab) 16 cs Demo.pcm10 [3; 3]%Q
    Partial.cursor0 = Ok c
  /\ exists (N : nat) c',
       forall fuel, (N <= fuel)%nat ->
         Partial.advance (C := Demo.collab) fuel cs Demo.pcm10 3 c
         = Ok (c', false).
Proof.
  intros cs c. split; [reflexivity|].
  apply (forward_loop_reads_in_range (C := Demo.collab) cs Demo.pcm10 c 3).
  - reflexivity.
  - simpl. lia.
  - simpl. lia.
  - apply Partial.loop_enter.
    + apply (advances_reachable (C := Demo.collab) 16 cs Demo.pcm10
               [3; 3]%Q Partial.cursor0 c).
      * apply Partial.reach_new.
      * repeat constructor.
      * reflexivity.
    + reflexivity.
    + apply in_windowb_true. reflexivity.
  - split; reflexivity.
Defined.

(** ** Release starts where the envelope is *)

(** X22.  [release()] does not make the output jump: when the Release
    phase it starts has a non-zero length, the first value
    [get_next_value] returns afterwards is the value the envelope had
    when [release()] was called, whichever shape flag is read. *)
Theorem release_starts_at_current_value s s' e e1 :
  AHDSR.release s e = Ok e1 ->
  AHDSR._phase e <> AHDSR.ahdsr_Release ->
  (0 < AHDSR._phaseSampleLen e1)%Z ->
  AHDSR.get_next_value s' e1
  = Ok (AHDSR.emit e1 (AHDSR._currentValue e)).
Proof.
  intros Hrel Hp Hlen.
  unfold AHDSR.release in Hrel.
  destruct (AHDSR.phase_eqb (AHDSR._phase e) AHDSR.ahdsr_Release) eqn:E.
  { destruct (AHDSR._phase e); try discriminate. contradiction. }
  destruct (init_new_phase_fields s AHDSR.ahdsr_Release e)
    as (e1' & H1 & Hp1 & Hi1 & _ & _ & Hinit & _); [discriminate|].
  rewrite Hrel in H1. injection H1 as <-.
  assert (Ho : AHDSR.phase_over e1 = false).
  { unfold AHDSR.phase_over. rewrite Hi1, Z.gtb_ltb. apply Z.ltb_ge. lia. }
  rewrite running_phase_samples; [|rewrite Hp1; discriminate|exact Ho].
  assert (Hsh : AHDSR.shape_read e1
                = Ok (AHDSR.a3 (AHDSR._phaseShape e1))).
  { rewrite shape_read_by_phase, Hp1. reflexivity. }
  destruct (sample_value_shaped e1 _ Hlen Hsh) as (target & _ & Hv).
  rewrite Hv, Hi1, Hinit, (shape_at_start _ _ _ _ Hlen). reflexivity.
Qed.

Lemma release_starts_at_current_value_witness :
  AHDSR.release EnvDemo.settings EnvDemo.started = Ok EnvDemo.released
  /\ AHDSR.get_next_value EnvDemo.settings EnvDemo.released
     = Ok (AHDSR.emit EnvDemo.released
             (AHDSR._currentValue EnvDemo.started)).
Proof.
  split; [reflexivity|].
  apply (release_starts_at_current_value EnvDemo.settings EnvDemo.settings
           EnvDemo.started EnvDemo.released).
  - reflexivity.
  - discriminate.
  - destruct released_state as (_ & _ & _ & _ & Hl). rewrite Hl. lia.
Defined.
